(** * mutex_guard.h: an owning lock and its scoped accessor

  A shallow embedding of [Mutex<T>] and [MutexGuard<T>] from
  [mutex_guard.h].  Objects live at addresses; a [MutexGuard] holds two raw
  pointers into a [Mutex] object, so the embedding keeps an explicit store of
  [Mutex] objects and of guard objects, and member functions are state
  transformers over that store.  Calls of [std::mutex::unlock] and of the
  constructors of [T] are recorded in a trace. *)

From stdpp Require Import base option list gmap.
From stdpp Require Import strings.
From Stdlib Require Import ZArith.

Abbreviation addr := positive.

(** A raw pointer: [None] is [nullptr].  A [T*] or [std::mutex*] stored in a
  guard designates the [value] or [mutex] member of the [Mutex] object at
  the given address. *)
Abbreviation ptr := (option positive).

(** ** The platform primitive [std::mutex] *)

Inductive std_mutex := Unlocked | Locked.

(** [std::mutex::mutex()]: a fresh primitive is unlocked. *)
Definition std_mutex_init : std_mutex := Unlocked.

(** [std::mutex::try_lock()]: fails when the primitive is held; it is also
  allowed to fail spuriously on a free primitive. *)
Definition std_mutex_try_lock (spurious : bool) (m : std_mutex) : bool * std_mutex :=
  match m with
  | Locked => (false, Locked)
  | Unlocked => if spurious then (false, Unlocked) else (true, Locked)
  end.

(** [std::mutex::lock()]: [None] stands for a caller that stays blocked. *)
Definition std_mutex_lock (m : std_mutex) : option std_mutex :=
  match m with
  | Unlocked => Some Locked
  | Locked => None
  end.

(** [std::mutex::unlock()]: the primitive must be held; [None] is the undefined
  behaviour of unlocking a free primitive. *)
Definition std_mutex_unlock (m : std_mutex) : option std_mutex :=
  match m with
  | Locked => Some Unlocked
  | Unlocked => None
  end.

(** [std::mutex] declares [mutex(const mutex&) = delete] and no move
  constructor or move assignment: there is no function relocating one. *)
Definition std_mutex_move : option (std_mutex → std_mutex * std_mutex) := None.

(** ** Values of type [T] *)

(** The state in which the move constructor of [T] leaves its source. *)
Class Movable (T : Type) := moved_from : T → T.

(** The value category of an initializer decides which constructor of [T]
  builds the new object. *)
Inductive value_category := lvalue | xvalue.

Inductive event :=
  | EvUnlock (m : addr)   (* a call of [unlock] on the primitive of the Mutex at [m] *)
  | EvCopy                (* a call of the copy constructor of [T] *)
  | EvMove.               (* a call of the move constructor of [T] *)

Global Instance event_eq_dec : EqDecision event.
Proof. solve_decision. Defined.

(** ** The two classes *)

Module MutexGuard.
Record t := mk { value : ptr; mutex : ptr }.
End MutexGuard.

Module Mutex.
Record t (T : Type) := mk { mutex : std_mutex; value : T }.
Arguments mk {T} _ _.
Arguments mutex {T} _.
Arguments value {T} _.
End Mutex.

(** ** Store, outcomes and the monad of member functions *)

(** [trace] lists the recorded events, latest first. *)
Record world (T : Type) := World {
  mutexes : gmap positive (Mutex.t T);
  guards : gmap positive MutexGuard.t;
  trace : list event
}.
Arguments World {T} _ _ _.
Arguments mutexes {T} _.
Arguments guards {T} _.
Arguments trace {T} _.

Inductive outcome (A : Type) :=
  | Done (x : A)
  | Blocked        (* the calling thread waits in [std::mutex::lock] *)
  | Undefined.     (* undefined behaviour *)
Arguments Done {A} _.
Arguments Blocked {A}.
Arguments Undefined {A}.

Definition M (T A : Type) : Type := world T → outcome (A * world T).

Global Instance M_ret T : MRet (M T) := λ A x w, Done (x, w).

Global Instance M_bind T : MBind (M T) := λ A B f m w,
  match m w with
  | Done (x, w') => f x w'
  | Blocked => Blocked
  | Undefined => Undefined
  end.

Section Model.
Context {T : Type} `{!Movable T}.

Definition undefined {A} : M T A := λ _, Undefined.
Definition blocked {A} : M T A := λ _, Blocked.

Definition emit (e : event) : M T unit :=
  λ w, Done (tt, World (mutexes w) (guards w) (e :: trace w)).

(** *** Mutex objects *)

Definition load_Mutex (a : addr) : M T (Mutex.t T) :=
  λ w, match mutexes w !! a with
       | Some m => Done (m, w)
       | None => Undefined
       end.

Definition store_Mutex (a : addr) (m : Mutex.t T) : M T unit :=
  λ w, match mutexes w !! a with
       | Some _ => Done (tt, World (<[a:=m]> (mutexes w)) (guards w) (trace w))
       | None => Undefined
       end.

(** Storage for a new object must not hold a live one. *)
Definition new_Mutex (a : addr) (m : Mutex.t T) : M T unit :=
  λ w, match mutexes w !! a with
       | Some _ => Undefined
       | None => Done (tt, World (<[a:=m]> (mutexes w)) (guards w) (trace w))
       end.

Definition free_Mutex (a : addr) : M T unit :=
  λ w, match mutexes w !! a with
       | Some _ => Done (tt, World (delete a (mutexes w)) (guards w) (trace w))
       | None => Undefined
       end.

(** *** Guard objects, member by member *)

Definition load_guard (g : addr) : M T MutexGuard.t :=
  λ w, match guards w !! g with
       | Some G => Done (G, w)
       | None => Undefined
       end.

Definition store_guard (g : addr) (G : MutexGuard.t) : M T unit :=
  λ w, match guards w !! g with
       | Some _ => Done (tt, World (mutexes w) (<[g:=G]> (guards w)) (trace w))
       | None => Undefined
       end.

Definition new_guard (g : addr) (G : MutexGuard.t) : M T unit :=
  λ w, match guards w !! g with
       | Some _ => Undefined
       | None => Done (tt, World (mutexes w) (<[g:=G]> (guards w)) (trace w))
       end.

Definition free_guard (g : addr) : M T unit :=
  λ w, match guards w !! g with
       | Some _ => Done (tt, World (mutexes w) (delete g (guards w)) (trace w))
       | None => Undefined
       end.

Definition get_value (g : addr) : M T ptr :=
  G ← load_guard g; mret (MutexGuard.value G).

Definition get_mutex (g : addr) : M T ptr :=
  G ← load_guard g; mret (MutexGuard.mutex G).

Definition set_value (g : addr) (p : ptr) : M T unit :=
  G ← load_guard g; store_guard g (MutexGuard.mk p (MutexGuard.mutex G)).

Definition set_mutex (g : addr) (p : ptr) : M T unit :=
  G ← load_guard g; store_guard g (MutexGuard.mk (MutexGuard.value G) p).

(** *** Calls on the primitive through a pointer *)

(** [mutex.try_lock()] on the [mutex] member of the Mutex at [a]. *)
Definition try_lock_at (a : addr) (spurious : bool) : M T bool :=
  m ← load_Mutex a;
  let '(ok, s) := std_mutex_try_lock spurious (Mutex.mutex m) in
  store_Mutex a (Mutex.mk s (Mutex.value m));;
  mret ok.

(** [mutex.lock()]. *)
Definition lock_at (a : addr) : M T unit :=
  m ← load_Mutex a;
  match std_mutex_lock (Mutex.mutex m) with
  | Some s => store_Mutex a (Mutex.mk s (Mutex.value m))
  | None => blocked
  end.

(** [mutex->unlock()]. *)
Definition unlock_at (a : addr) : M T unit :=
  m ← load_Mutex a;
  match std_mutex_unlock (Mutex.mutex m) with
  | Some s => store_Mutex a (Mutex.mk s (Mutex.value m));; emit (EvUnlock a)
  | None => undefined
  end.

(** Initialising a [T] from an expression of the given category: the new
    object, and the state the source is left in. *)
Definition construct_T (c : value_category) (src : T) : M T (T * T) :=
  match c with
  | lvalue => emit EvCopy;; mret (src, src)
  | xvalue => emit EvMove;; mret (src, moved_from src)
  end.

(** *** MutexGuard<T> *)

(** [MutexGuard(T *value, std::mutex *mutex) : value(value), mutex(mutex) {}] *)
Definition MutexGuard_ctor (value mutex : ptr) : MutexGuard.t :=
  MutexGuard.mk value mutex.

(** [~MutexGuard()] *)
Definition MutexGuard_dtor (this : addr) : M T unit :=
  mutex ← get_mutex this;
  match mutex with
  | Some a => unlock_at a
  | None => mret tt
  end.

(** [operator bool() const] *)
Definition MutexGuard_bool (G : MutexGuard.t) : bool :=
  match MutexGuard.mutex G with
  | Some _ => true
  | None => false
  end.

(** [T &operator*() const]: the address of the Mutex whose [value] member
    the result refers to; dereferencing a null [value] is undefined. *)
Definition MutexGuard_deref (this : addr) : M T addr :=
  value ← get_value this;
  match value with
  | Some a => _ ← load_Mutex a; mret a
  | None => undefined
  end.

(** [T *operator->() const] *)
Definition MutexGuard_arrow (this : addr) : M T ptr :=
  get_value this.

(** [MutexGuard(MutexGuard &&guard)]: the reference [guard] is bound to a
    constructed object, [this] is fresh storage, and its two members are
    assigned in the body. *)
Definition MutexGuard_move_ctor (this guard : addr) : M T unit :=
  _ ← load_guard guard;
  new_guard this (MutexGuard.mk None None);;
  v ← get_value guard;
  set_value this v;;
  m ← get_mutex guard;
  set_mutex this m;;
  set_mutex guard None.

(** The body of [MutexGuard &operator=(MutexGuard &&guard)], run to its end:
    [this] and [guard] may be the same object.  The result is the object a
    [return] statement designates, [None] when control reaches the end of the
    body without one; what that means for a call is
    [MutexGuard_move_assign]. *)
Definition MutexGuard_move_assign_body (this guard : addr) : M T (option addr) :=
  v ← get_value guard;
  set_value this v;;
  m ← get_mutex guard;
  set_mutex this m;;
  set_mutex guard None;;
  mret None.

(** [MutexGuard &operator=(MutexGuard &&guard)], called as
    [this = std::move(guard)]: the operator is declared to return
    [MutexGuard&], and flowing off the end of its body without a [return]
    statement is undefined behaviour. *)
Definition MutexGuard_move_assign (this guard : addr) : M T addr :=
  r ← MutexGuard_move_assign_body this guard;
  match r with
  | Some x => mret x
  | None => undefined
  end.

(** *** Mutex<T> *)

(** [explicit Mutex(T value) : value(value) {}]: the [mutex] member is
    default-initialised, the [value] member is initialised from the
    parameter, which is named by the initializer and so is an lvalue.  The
    parameter itself is initialised by the caller from the argument; that
    is not part of the constructor. *)
Definition Mutex_ctor (this : addr) (value : T) : M T unit :=
  '(v, _) ← construct_T lvalue value;
  new_Mutex this (Mutex.mk std_mutex_init v).

(** [MutexGuard<T> try_lock()] *)
Definition Mutex_try_lock (this : addr) (spurious : bool) : M T MutexGuard.t :=
  ok ← try_lock_at this spurious;
  if ok : bool then mret (MutexGuard_ctor (Some this) (Some this))
  else mret (MutexGuard_ctor None None).

(** [MutexGuard<T> lock()] *)
Definition Mutex_lock (this : addr) : M T MutexGuard.t :=
  lock_at this;;
  mret (MutexGuard_ctor (Some this) (Some this)).

(** [static T unwrap(Mutex<T>&& self)]: the result is move-constructed from
    [self.value]. *)
Definition Mutex_unwrap (self : addr) : M T T :=
  m ← load_Mutex self;
  '(r, husk) ← construct_T xvalue (Mutex.value m);
  store_Mutex self (Mutex.mk (Mutex.mutex m) husk);;
  mret r.

(** Member-wise move construction and move assignment of a [Mutex], in
    declaration order, given a function [mv] relocating the primitive (the
    new primitive, and the state left in the source). *)
Definition memberwise_move_ctor (mv : std_mutex → std_mutex * std_mutex)
    (this other : addr) : M T unit :=
  m ← load_Mutex other;
  let '(p, p_husk) := mv (Mutex.mutex m) in
  '(v, v_husk) ← construct_T xvalue (Mutex.value m);
  new_Mutex this (Mutex.mk p v);;
  store_Mutex other (Mutex.mk p_husk v_husk).

Definition memberwise_move_assign (mv : std_mutex → std_mutex * std_mutex)
    (this other : addr) : M T unit :=
  m ← load_Mutex other;
  let '(p, p_husk) := mv (Mutex.mutex m) in
  '(v, v_husk) ← construct_T xvalue (Mutex.value m);
  store_Mutex this (Mutex.mk p v);;
  store_Mutex other (Mutex.mk p_husk v_husk).

(** [Mutex(Mutex &&) noexcept = default]: the member-wise move, defined only
    when every member can be relocated, and deleted otherwise. *)
Definition Mutex_move_ctor : option (addr → addr → M T unit) :=
  memberwise_move_ctor <$> std_mutex_move.

(** [Mutex &operator=(Mutex &&) noexcept = default] *)
Definition Mutex_move_assign : option (addr → addr → M T unit) :=
  memberwise_move_assign <$> std_mutex_move.

End Model.

(** ** Client programs *)

(** What a client can do with the two classes, one statement at a time. *)
Inductive op (T : Type) :=
  | NewMutex (a : addr) (v : T)              (* [Mutex<T> a(v);], [v] a prvalue *)
  | DeleteMutex (a : addr)                   (* the end of the lifetime of [a] *)
  | TryLock (g a : addr) (spurious : bool)   (* [auto g = a.try_lock();] *)
  | Lock (g a : addr)                        (* [auto g = a.lock();] *)
  | MoveCtor (g src : addr)                  (* [MutexGuard<T> g(std::move(src));] *)
  | MoveAssign (dst src : addr)              (* [dst = std::move(src);] *)
  | Drop (g : addr)                          (* the end of the lifetime of [g] *)
  | Write (g : addr) (v : T).                (* [*g = v;] *)
Arguments NewMutex {T} _ _.
Arguments DeleteMutex {T} _.
Arguments TryLock {T} _ _ _.
Arguments Lock {T} _ _.
Arguments MoveCtor {T} _ _.
Arguments MoveAssign {T} _ _.
Arguments Drop {T} _.
Arguments Write {T} _ _.

Section Programs.
Context {T : Type} `{!Movable T}.

(** The implicit [~Mutex()] destroys the members; destroying a held
    [std::mutex] is undefined. *)
Definition Mutex_dtor (this : addr) : M T unit :=
  m ← load_Mutex this;
  match Mutex.mutex m with
  | Unlocked => free_Mutex this
  | Locked => undefined
  end.

Definition step (o : op T) : M T unit :=
  match o with
  | NewMutex a v => Mutex_ctor a v
  | DeleteMutex a => Mutex_dtor a
  | TryLock g a spurious => G ← Mutex_try_lock a spurious; new_guard g G
  | Lock g a => G ← Mutex_lock a; new_guard g G
  | MoveCtor g src => MutexGuard_move_ctor g src
  | MoveAssign dst src => MutexGuard_move_assign dst src;; mret tt
  | Drop g => MutexGuard_dtor g;; free_guard g
  | Write g v =>
      a ← MutexGuard_deref g;
      m ← load_Mutex a;
      store_Mutex a (Mutex.mk (Mutex.mutex m) v)
  end.

Fixpoint run (p : list (op T)) : M T unit :=
  match p with
  | [] => mret tt
  | o :: p' => step o;; run p'
  end.

(** The world a program starts in: no object, nothing recorded. *)
Definition init : world T := World ∅ ∅ [].

(** How often [unlock] was called on the primitive of the Mutex at [a]. *)
Definition unlock_count (a : addr) (w : world T) : nat :=
  length (filter (λ e, e = EvUnlock a) (trace w)).

(** How often the copy constructor of [T] was called. *)
Definition copy_count (w : world T) : nat :=
  length (filter (λ e, e = EvCopy) (trace w)).

(** The state of the primitive of the Mutex at [a]. *)
Definition primitive (a : addr) (w : world T) : option std_mutex :=
  Mutex.mutex <$> mutexes w !! a.

(** The value owned by the Mutex at [a]. *)
Definition owned (a : addr) (w : world T) : option T :=
  Mutex.value <$> mutexes w !! a.

(** *** Observations used in the statements *)

(** Guard [g] is alive and its [mutex] member points into the Mutex at [a]. *)
Definition holds (w : world T) (g a : addr) : Prop :=
  MutexGuard.mutex <$> guards w !! g = Some (Some a).

(** No live guard would unlock the primitive of the Mutex at [a]. *)
Definition no_holder (a : addr) (w : world T) : Prop :=
  ∀ g, ¬ holds w g a.

(** Exactly the guard [h] would unlock it. *)
Definition sole_holder (a h : addr) (w : world T) : Prop :=
  holds w h a ∧ ∀ g, holds w g a → g = h.

(** The invariant of the worlds a client can reach: a guard with a non-null
    [mutex] points into a live Mutex whose primitive is held, no two guards
    point to the same primitive, and [value] points into the same Mutex. *)
Record wf (w : world T) : Prop := {
  wf_locked : ∀ g a, holds w g a → primitive a w = Some Locked;
  wf_unique : ∀ g1 g2 a, holds w g1 a → holds w g2 a → g1 = g2;
  wf_value : ∀ g G a, guards w !! g = Some G →
               MutexGuard.mutex G = Some a → MutexGuard.value G = Some a
}.

(** [w] is the world after [MutexGuard<T> g = a.lock()], or after
    [a.try_lock()] when the guard it gave converts to [true], from [w0]. *)
Definition acquired (g a : addr) (w0 w : world T) : Prop :=
  step (Lock g a) w0 = Done (tt, w)
  ∨ ∃ spurious, step (TryLock g a spurious) w0 = Done (tt, w)
      ∧ MutexGuard_bool <$> guards w !! g = Some true.

Definition is_move_or_drop (o : op T) : bool :=
  match o with
  | MoveCtor _ _ | MoveAssign _ _ | Drop _ => true
  | _ => false
  end.

(** [scoped live chain h p]: the statements of [p] respect the lifetimes of
    the guards.  [live] are the addresses of the guards alive, [chain] those
    among them that descend by move construction from the guard that
    acquired the lock, and [h] the one that holds it ([None] once it was
    destroyed).  A guard is move-constructed in free storage from a live
    guard, destroyed while alive, and written through while in [chain]; the
    result is the holder at the end of [p].  Nothing here says which guard
    would unlock: that is what the code has to get right. *)
Fixpoint scoped (live chain : gset positive) (h : option addr) (p : list (op T))
    : option (option addr) :=
  match p with
  | [] => Some h
  | MoveCtor g src :: p' =>
      if decide (src ∈ live ∧ g ∉ live)
      then scoped ({[g]} ∪ live)
             (if decide (src ∈ chain) then {[g]} ∪ chain else chain)
             (if decide (h = Some src) then Some g else h) p'
      else None
  | Drop x :: p' =>
      if decide (x ∈ live)
      then scoped (live ∖ {[x]}) (chain ∖ {[x]})
             (if decide (h = Some x) then None else h) p'
      else None
  | Write x _ :: p' =>
      if decide (x ∈ chain) then scoped live chain h p' else None
  | _ => None
  end.

(** What the run of a scoped program has to keep: the guards alive are
    [live], those in [chain] point with [value] into the live Mutex at [a],
    and [h] is the only guard that would unlock its primitive. *)
Record follows (a : addr) (live chain : gset positive) (h : option addr)
    (w : world T) : Prop := {
  follows_wf : wf w;
  follows_live : dom (guards w) = live;
  follows_chain : ∀ x, x ∈ chain →
    ∃ G, guards w !! x = Some G ∧ MutexGuard.value G = Some a;
  follows_alive : is_Some (mutexes w !! a);
  follows_holder : match h with
                   | Some x => sole_holder a x w
                   | None => no_holder a w
                   end
}.

(** The number of calls of [unlock] a run adds when the holder goes from [h]
    to [h']. *)
Definition released (h h' : option addr) : nat :=
  match h, h' with
  | Some _, None => 1
  | _, _ => 0
  end.

(** Statements that neither write through a guard nor end the lifetime of
    the Mutex at [a]. *)
Definition leaves_value (a : addr) (o : op T) : bool :=
  match o with
  | Write _ _ => false
  | DeleteMutex b => bool_decide (b ≠ a)
  | _ => true
  end.

(** *** The worlds the statements lead to *)

(** The world after [dst = std::move(src)]. *)
Definition assigned (dst src : addr) (Gs : MutexGuard.t) w : world T :=
  World (mutexes w)
    (<[src:=MutexGuard.mk (MutexGuard.value Gs) None]> (<[dst:=Gs]> (guards w)))
    (trace w).

(** The world after [mutex->unlock()] on a held primitive. *)
Definition unlocked (a : addr) (m : Mutex.t T) w : world T :=
  World (<[a:=Mutex.mk Unlocked (Mutex.value m)]> (mutexes w)) (guards w)
    (EvUnlock a :: trace w).

(** The world after the lifetime of guard [g] ended. *)
Definition dropped (g : addr) w : world T :=
  World (mutexes w) (delete g (guards w)) (trace w).

(** The world after a successful [g = a.lock()] or [g = a.try_lock()]. *)
Definition locked_by (g a : addr) (m : Mutex.t T) w : world T :=
  World (<[a:=Mutex.mk Locked (Mutex.value m)]> (mutexes w))
    (<[g:=MutexGuard.mk (Some a) (Some a)]> (guards w)) (trace w).

(** The world after a failed [g = a.try_lock()]. *)
Definition refused (g : addr) w : world T :=
  World (mutexes w) (<[g:=MutexGuard.mk None None]> (guards w)) (trace w).


End Programs.

(** [int], the value type of the example program: a moved-from [int] keeps
  its value. *)
Global Instance int_movable : Movable Z := λ x, x.

(** ** Worlds and programs of the examples *)


(** The example program's Mutex before any acquisition, and while a guard at
    address 1 holds it. *)
Definition free_world : world Z :=
  World {[1%positive := Mutex.mk Unlocked 0%Z]} ∅ [EvCopy].

Definition held_world : world Z :=
  World {[1%positive := Mutex.mk Locked 0%Z]}
    {[1%positive := MutexGuard.mk (Some 1%positive) (Some 1%positive)]} [EvCopy].

(** Two Mutexes, each held by the guard at its own address. *)
Definition two_locks_world : world Z :=
  World (<[2%positive := Mutex.mk Locked 0%Z]> {[1%positive := Mutex.mk Locked 0%Z]})
    (<[2%positive := MutexGuard.mk (Some 2%positive) (Some 2%positive)]>
       {[1%positive := MutexGuard.mk (Some 1%positive) (Some 1%positive)]})
    [EvCopy; EvCopy].

(** The same with a second guard, left by a refused [try_lock()]. *)
Definition contended_world : world Z :=
  World {[1%positive := Mutex.mk Locked 0%Z]}
    (<[2%positive := MutexGuard.mk None None]>
       {[1%positive := MutexGuard.mk (Some 1%positive) (Some 1%positive)]}) [EvCopy].

(** ** Further observations *)

Definition is_move_assign {T} (o : op T) : bool :=
  match o with
  | MoveAssign _ _ => true
  | _ => false
  end.

Definition is_new_Mutex {T} (o : op T) : bool :=
  match o with
  | NewMutex _ _ => true
  | _ => false
  end.

(** How often the move constructor of [T] was called. *)
Definition move_count {T} (w : world T) : nat :=
  length (filter (λ e, e = EvMove) (trace w)).

(** Every held primitive has a guard that would unlock it. *)
Definition covered {T} (w : world T) : Prop :=
  ∀ a, primitive a w = Some Locked → ∃ g, holds w g a.

(** ** example.cpp *)

Definition INT_MAX : Z := 2147483647.

(** What is written to [std::cout], one item per [<<]. *)
Inductive output :=
  | Text (s : string)
  | Int (n : Z)
  | Endl.

(** The post-increment of [*guard] on an [int]: the old value; signed overflow
    is undefined. *)
Definition post_increment (guard : addr) : M Z Z :=
  a ← MutexGuard_deref guard;
  m ← load_Mutex a;
  if decide (Mutex.value m < INT_MAX)%Z
  then store_Mutex a (Mutex.mk (Mutex.mutex m) (Mutex.value m + 1)%Z);;
       mret (Mutex.value m)
  else undefined.

(** The functions of [example.cpp].  A function takes the addresses of its
    local objects, and returns what it wrote to [std::cout]. *)
Module example.

(** [void try_lock(Mutex<int>& test)]: the guard declared in the condition
    lives until the end of the [if] statement. *)
Definition try_lock (test guard : addr) (spurious : bool) : M Z (list output) :=
  step (TryLock guard test spurious);;
  G ← load_guard guard;
  out ← (if MutexGuard_bool G
         then n ← post_increment guard; mret [Int n; Endl]
         else mret []);
  step (Drop guard);;
  mret out.

(** [void lock(Mutex<int>& test)] *)
Definition lock (test guard : addr) : M Z (list output) :=
  step (Lock guard test);;
  n ← post_increment guard;
  step (Drop guard);;
  mret [Int n; Endl].

(** [MutexGuard<int> dont_do_this()]: the guard is built in the result
    object, then the local Mutex is destroyed. *)
Definition dont_do_this (local_mutex result : addr) : M Z unit :=
  Mutex_ctor local_mutex 0%Z;;
  step (Lock result local_mutex);;
  Mutex_dtor local_mutex.

(** [int main()]: the output and the returned value. *)
Definition main (mutex guard local_mutex temporary : addr) (spurious : bool)
    : M Z (list output * Z) :=
  Mutex_ctor mutex 0%Z;;
  o1 ← try_lock mutex guard spurious;
  o2 ← lock mutex guard;
  dont_do_this local_mutex temporary;;
  step (Drop temporary);;
  integer ← Mutex_unwrap mutex;
  Mutex_dtor mutex;;
  mret ([Text "Hello, World!"; Endl] ++ o1 ++ o2 ++ [Int integer; Endl], 0%Z).

End example.

(** The world after [example.lock] on the Mutex at [test]. *)
Definition incremented (test : addr) (m : Mutex.t Z) (w : world Z) : world Z :=
  World (<[test:=Mutex.mk Unlocked (Mutex.value m + 1)%Z]> (mutexes w)) (guards w)
    (EvUnlock test :: trace w).

(** * Properties *)

Ltac by_eval := vm_compute; reflexivity.

Ltac unfold_M :=
unfold step, run, Mutex_dtor, Mutex_ctor, Mutex_try_lock, Mutex_lock, Mutex_unwrap,
  MutexGuard_move_assign_body, MutexGuard_move_ctor, MutexGuard_deref, MutexGuard_dtor,
  MutexGuard_ctor, construct_T, unlock_at, lock_at, try_lock_at,
  set_mutex, set_value, get_mutex, get_value,
  free_guard, new_guard, store_guard, load_guard,
  free_Mutex, new_Mutex, store_Mutex, load_Mutex, emit, blocked, undefined,
  mbind, M_bind, mret, M_ret in *.

Section Effects.
Context {T : Type} `{!Movable T}.
Implicit Types (w : world T) (a g : addr).

Lemma Mutex_eta (m : Mutex.t T) : Mutex.mk (Mutex.mutex m) (Mutex.value m) = m.
Proof. by destruct m. Qed.

Lemma world_eta w : World (mutexes w) (guards w) (trace w) = w.
Proof. by destruct w. Qed.

Lemma bind_Done {A B} (m : M T A) (f : A → M T B) w x w1 :
  m w = Done (x, w1) → (m ≫= f) w = f x w1.
Proof. intros E. unfold mbind, M_bind. by rewrite E. Qed.

Lemma bind_inv {A B} (m : M T A) (f : A → M T B) w r :
  (m ≫= f) w = Done r → ∃ x w1, m w = Done (x, w1) ∧ f x w1 = Done r.
Proof.
  unfold mbind, M_bind. destruct (m w) as [[x w1]| |]; [eauto|done|done].
Qed.

Lemma get_value_Done g G w :
  guards w !! g = Some G → get_value g w = Done (MutexGuard.value G, w).
Proof. intros E. unfold_M. by rewrite E. Qed.

Lemma get_mutex_Done g G w :
  guards w !! g = Some G → get_mutex g w = Done (MutexGuard.mutex G, w).
Proof. intros E. unfold_M. by rewrite E. Qed.

Lemma set_value_Done g G p w :
  guards w !! g = Some G →
  set_value g p w
  = Done (tt, World (mutexes w) (<[g:=MutexGuard.mk p (MutexGuard.mutex G)]> (guards w)) (trace w)).
Proof. intros E. unfold_M. rewrite E. simpl. by rewrite E. Qed.

Lemma set_mutex_Done g G p w :
  guards w !! g = Some G →
  set_mutex g p w
  = Done (tt, World (mutexes w) (<[g:=MutexGuard.mk (MutexGuard.value G) p]> (guards w)) (trace w)).
Proof. intros E. unfold_M. rewrite E. simpl. by rewrite E. Qed.

Lemma move_assign_Done dst src Gd Gs w :
  guards w !! dst = Some Gd →
  guards w !! src = Some Gs →
  MutexGuard_move_assign_body dst src w = Done (None, assigned dst src Gs w).
Proof.
  intros Hd Hs. unfold MutexGuard_move_assign_body, assigned.
  rewrite (bind_Done _ _ _ _ _ (get_value_Done _ _ _ Hs)).
  rewrite (bind_Done _ _ _ _ _ (set_value_Done _ _ _ _ Hd)).
  destruct (decide (dst = src)) as [->|Hne].
  - rewrite Hd in Hs. injection Hs as ->.
    erewrite bind_Done; [|apply get_mutex_Done; simpl; apply lookup_insert_eq].
    erewrite bind_Done; [|apply set_mutex_Done; simpl; apply lookup_insert_eq].
    erewrite bind_Done; [|apply set_mutex_Done; simpl; apply lookup_insert_eq].
    simpl. unfold mret, M_ret. destruct Gs; simpl. by rewrite !insert_insert_eq.
  - erewrite bind_Done; [|apply get_mutex_Done; simpl; by rewrite lookup_insert_ne].
    erewrite bind_Done; [|apply set_mutex_Done; simpl; apply lookup_insert_eq].
    erewrite bind_Done; [|apply set_mutex_Done; simpl; by rewrite lookup_insert_ne, lookup_insert_ne].
    simpl. unfold mret, M_ret. destruct Gs; simpl. by rewrite !insert_insert_eq.
Qed.

Lemma move_assign_inv dst src w r w' :
  MutexGuard_move_assign_body dst src w = Done (r, w') →
  ∃ Gd Gs, guards w !! dst = Some Gd ∧ guards w !! src = Some Gs
    ∧ r = None ∧ w' = assigned dst src Gs w.
Proof.
  intros H.
  destruct (guards w !! src) as [Gs|] eqn:Hs; [|by unfold_M; rewrite Hs in H].
  destruct (guards w !! dst) as [Gd|] eqn:Hd.
  - rewrite (move_assign_Done _ _ _ _ _ Hd Hs) in H. simplify_eq. eauto 10.
  - unfold_M. rewrite Hs in H. simpl in H. by rewrite Hd in H.
Qed.

Lemma move_assign_call_Undefined dst src w :
  MutexGuard_move_assign dst src w = Undefined.
Proof.
  unfold MutexGuard_move_assign, mbind, M_bind.
  destruct (guards w !! src) as [Gs|] eqn:Hs; [|by unfold_M; rewrite Hs].
  destruct (guards w !! dst) as [Gd|] eqn:Hd.
  - by rewrite (move_assign_Done _ _ _ _ _ Hd Hs).
  - unfold_M. rewrite Hs. simpl. by rewrite Hd.
Qed.

Lemma step_MoveAssign_Undefined dst src w : step (MoveAssign dst src) w = Undefined.
Proof.
  unfold step. unfold mbind, M_bind. by rewrite move_assign_call_Undefined.
Qed.

(** The world after [MutexGuard<T> g(std::move(src))]. *)
Lemma move_ctor_Done g src Gs w :
  guards w !! g = None →
  guards w !! src = Some Gs →
  MutexGuard_move_ctor g src w = Done (tt, assigned g src Gs w).
Proof.
  intros Hg Hs. unfold MutexGuard_move_ctor, assigned.
  assert (g ≠ src) as Hne by congruence.
  erewrite bind_Done; [|unfold load_guard; by rewrite Hs].
  erewrite bind_Done; [|unfold new_guard; by rewrite Hg].
  erewrite bind_Done; [|apply get_value_Done; simpl; by rewrite lookup_insert_ne].
  erewrite bind_Done; [|apply set_value_Done; simpl; apply lookup_insert_eq].
  erewrite bind_Done; [|apply get_mutex_Done; simpl; by rewrite lookup_insert_ne, lookup_insert_ne].
  erewrite bind_Done; [|apply set_mutex_Done; simpl; apply lookup_insert_eq].
  erewrite set_mutex_Done; [|simpl; by rewrite !lookup_insert_ne].
  simpl. destruct Gs; simpl. by rewrite !insert_insert_eq.
Qed.

Lemma move_ctor_inv g src w w' :
  MutexGuard_move_ctor g src w = Done (tt, w') →
  ∃ Gs, guards w !! g = None ∧ guards w !! src = Some Gs ∧ w' = assigned g src Gs w.
Proof.
  intros H.
  destruct (guards w !! src) as [Gs|] eqn:Hs; [|by unfold_M; rewrite Hs in H].
  destruct (guards w !! g) as [G|] eqn:Hg.
  - unfold_M. rewrite Hs in H. simpl in H. by rewrite Hg in H.
  - rewrite (move_ctor_Done _ _ _ _ Hg Hs) in H. simplify_eq. eauto.
Qed.

Lemma unlock_at_Done a m w :
  mutexes w !! a = Some m → Mutex.mutex m = Locked →
  unlock_at a w = Done (tt, unlocked a m w).
Proof. intros Hm Hl. unfold_M. rewrite Hm, Hl. simpl. by rewrite Hm. Qed.

Lemma unlock_at_inv a w w' :
  unlock_at a w = Done (tt, w') →
  ∃ m, mutexes w !! a = Some m ∧ Mutex.mutex m = Locked ∧ w' = unlocked a m w.
Proof.
  intros H. unfold_M. destruct (mutexes w !! a) as [m|] eqn:Hm; [|done].
  simpl in H. destruct (Mutex.mutex m) eqn:Hl; simpl in H; [done|].
  rewrite Hm in H. simplify_eq. eauto.
Qed.

Lemma drop_inv g w w' :
  step (Drop g) w = Done (tt, w') →
  ∃ G, guards w !! g = Some G
    ∧ match MutexGuard.mutex G with
      | None => w' = dropped g w
      | Some a => ∃ m, mutexes w !! a = Some m ∧ Mutex.mutex m = Locked
                     ∧ w' = dropped g (unlocked a m w)
      end.
Proof.
  intros H. simpl in H. apply bind_inv in H as ([] & w1 & H1 & H2).
  unfold MutexGuard_dtor in H1.
  destruct (guards w !! g) as [G|] eqn:Hg; [|by unfold_M; rewrite Hg in H1].
  exists G. split; [done|].
  rewrite (bind_Done _ _ _ _ _ (get_mutex_Done _ _ _ Hg)) in H1.
  unfold free_guard in H2.
  destruct (MutexGuard.mutex G) as [a|].
  - apply unlock_at_inv in H1 as (m & Hm & Hl & ->).
    exists m. split_and!; [done..|].
    simpl in H2. rewrite Hg in H2. by simplify_eq.
  - unfold mret, M_ret in H1. simplify_eq. rewrite Hg in H2. by simplify_eq.
Qed.

Lemma drop_null_Done g G w :
  guards w !! g = Some G → MutexGuard.mutex G = None →
  step (Drop g) w = Done (tt, dropped g w).
Proof. intros Hg Hn. unfold_M. simpl. rewrite Hg. simpl. rewrite Hn, Hg. done. Qed.

Lemma drop_held_Done g G a m w :
  guards w !! g = Some G → MutexGuard.mutex G = Some a →
  mutexes w !! a = Some m → Mutex.mutex m = Locked →
  step (Drop g) w = Done (tt, dropped g (unlocked a m w)).
Proof.
  intros Hg Hn Hm Hl. unfold_M. simpl. rewrite Hg. simpl.
  rewrite Hn, Hm. simpl. rewrite Hl. simpl. rewrite Hm. simpl. by rewrite Hg.
Qed.

Lemma lock_inv g a w w' :
  step (Lock g a) w = Done (tt, w') →
  ∃ m, mutexes w !! a = Some m ∧ Mutex.mutex m = Unlocked
    ∧ guards w !! g = None ∧ w' = locked_by g a m w.
Proof.
  intros H. unfold_M. unfold locked_by.
  destruct (mutexes w !! a) as [m|] eqn:Hm; [|done]. simpl in H.
  destruct (Mutex.mutex m) eqn:Hu; simpl in H; [|done].
  rewrite Hm in H. simpl in H.
  destruct (guards w !! g) eqn:Hg; [done|]. simplify_eq. eauto.
Qed.

Lemma try_lock_inv g a spurious w w' :
  step (TryLock g a spurious) w = Done (tt, w') →
  ∃ m, mutexes w !! a = Some m ∧ guards w !! g = None
    ∧ (w' = refused g w ∨ (Mutex.mutex m = Unlocked ∧ w' = locked_by g a m w)).
Proof.
  intros H. unfold_M. unfold locked_by, refused.
  destruct (mutexes w !! a) as [m|] eqn:Hm; [|done]. simpl in H.
  exists m. split; [done|].
  destruct (Mutex.mutex m) eqn:Hu, spurious; simpl in H; rewrite Hm in H; simpl in H;
    destruct (guards w !! g) eqn:Hg; simplify_eq; (split; [done|]);
    rewrite <- ?Hu, ?Mutex_eta, ?insert_id by done; auto.
Qed.

(** *** Who holds what after each statement *)

Lemma holds_assigned dst src Gs w x a :
  guards w !! src = Some Gs →
  holds (assigned dst src Gs w) x a
  ↔ x ≠ src ∧ ((x = dst ∧ holds w src a) ∨ (x ≠ dst ∧ holds w x a)).
Proof.
  intros Hs. unfold holds, assigned. simpl.
  destruct (decide (x = src)) as [->|].
  { rewrite lookup_insert_eq. simpl. intuition congruence. }
  rewrite lookup_insert_ne by done.
  destruct (decide (x = dst)) as [->|].
  - rewrite lookup_insert_eq, Hs. simpl. intuition congruence.
  - rewrite lookup_insert_ne by done. intuition congruence.
Qed.

Lemma holds_dropped g w x a : holds (dropped g w) x a ↔ x ≠ g ∧ holds w x a.
Proof.
  unfold holds, dropped. simpl.
  destruct (decide (x = g)) as [->|].
  - rewrite lookup_delete_eq. simpl. intuition congruence.
  - rewrite lookup_delete_ne by done. intuition congruence.
Qed.

Lemma holds_unlocked a m w x b : holds (unlocked a m w) x b ↔ holds w x b.
Proof. done. Qed.

Lemma holds_locked_by g a m w x b :
  holds (locked_by g a m w) x b ↔ (x = g ∧ b = a) ∨ (x ≠ g ∧ holds w x b).
Proof.
  unfold holds, locked_by. simpl.
  destruct (decide (x = g)) as [->|].
  - rewrite lookup_insert_eq. simpl. intuition congruence.
  - rewrite lookup_insert_ne by done. intuition congruence.
Qed.

Lemma holds_refused g w x b : holds (refused g w) x b ↔ x ≠ g ∧ holds w x b.
Proof.
  unfold holds, refused. simpl.
  destruct (decide (x = g)) as [->|].
  - rewrite lookup_insert_eq. simpl. intuition congruence.
  - rewrite lookup_insert_ne by done. intuition congruence.
Qed.

Lemma holds_alive w g a : holds w g a → is_Some (guards w !! g).
Proof. unfold holds. destruct (guards w !! g); [eauto|done]. Qed.

Lemma primitive_unlocked a m w b :
  primitive b (unlocked a m w) = if decide (b = a) then Some Unlocked else primitive b w.
Proof.
  unfold primitive, unlocked. simpl. case_decide as E.
  - subst. by rewrite lookup_insert_eq.
  - by rewrite lookup_insert_ne.
Qed.

Lemma primitive_dropped g w b : primitive b (dropped g w) = primitive b w.
Proof. done. Qed.

Lemma primitive_assigned dst src Gs w b :
  primitive b (assigned dst src Gs w) = primitive b w.
Proof. done. Qed.

Lemma primitive_locked_by g a m w b :
  primitive b (locked_by g a m w) = if decide (b = a) then Some Locked else primitive b w.
Proof.
  unfold primitive, locked_by. simpl. case_decide as E.
  - subst. by rewrite lookup_insert_eq.
  - by rewrite lookup_insert_ne.
Qed.

Lemma unlock_count_unlocked a m w b :
  unlock_count b (unlocked a m w)
  = if decide (b = a) then S (unlock_count b w) else unlock_count b w.
Proof.
  unfold unlock_count, unlocked. simpl. rewrite filter_cons.
  repeat case_decide; simplify_eq; done.
Qed.

Lemma wf_assigned dst src Gs w :
  wf w → guards w !! src = Some Gs → wf (assigned dst src Gs w).
Proof.
  intros [HL HU HV] Hs. split.
  - intros x b Hx. apply (holds_assigned _ _ _ _ _ _ Hs) in Hx as [_ [[_ Hx]|[_ Hx]]];
      eapply HL, Hx.
  - intros x y b Hx Hy.
    apply (holds_assigned _ _ _ _ _ _ Hs) in Hx as [Hxs [[-> Hx]|[Hxd Hx]]];
    apply (holds_assigned _ _ _ _ _ _ Hs) in Hy as [Hys [[-> Hy]|[Hyd Hy]]]; try done.
    + exfalso. apply Hys. by apply (HU y src b).
    + exfalso. apply Hxs. by apply (HU x src b).
    + by apply (HU x y b).
  - intros x G b. unfold assigned. simpl.
    destruct (decide (x = src)) as [->|]; [rewrite lookup_insert_eq; by intros [= <-]|].
    rewrite lookup_insert_ne by done.
    destruct (decide (x = dst)) as [->|].
    + rewrite lookup_insert_eq. intros [= <-]. by apply (HV src).
    + rewrite lookup_insert_ne by done. apply HV.
Qed.

Lemma new_Mutex_inv a v w w' :
  step (NewMutex a v) w = Done (tt, w') →
  mutexes w !! a = None
  ∧ w' = World (<[a:=Mutex.mk Unlocked v]> (mutexes w)) (guards w) (EvCopy :: trace w).
Proof.
  intros H. unfold_M. simpl in H.
  destruct (mutexes w !! a) eqn:Hm; [done|]. by simplify_eq.
Qed.

Lemma delete_Mutex_inv a w w' :
  step (DeleteMutex a) w = Done (tt, w') →
  ∃ m, mutexes w !! a = Some m ∧ Mutex.mutex m = Unlocked
    ∧ w' = World (delete a (mutexes w)) (guards w) (trace w).
Proof.
  intros H. unfold_M. simpl in H.
  destruct (mutexes w !! a) as [m|] eqn:Hm; [|done]. simpl in H.
  destruct (Mutex.mutex m) eqn:Hu; [|done]. rewrite Hm in H. simplify_eq. eauto.
Qed.

Lemma write_inv g v w w' :
  step (Write g v) w = Done (tt, w') →
  ∃ G a m, guards w !! g = Some G ∧ MutexGuard.value G = Some a
    ∧ mutexes w !! a = Some m
    ∧ w' = World (<[a:=Mutex.mk (Mutex.mutex m) v]> (mutexes w)) (guards w) (trace w).
Proof.
  intros H. unfold_M. simpl in H.
  destruct (guards w !! g) as [G|] eqn:Hg; [|done]. simpl in H.
  destruct (MutexGuard.value G) as [a|] eqn:Hv; [|done].
  destruct (mutexes w !! a) as [m|] eqn:Hm; [|done]. simpl in H.
  rewrite Hm in H. simpl in H. rewrite Hm in H. simplify_eq. eauto 10.
Qed.

(** *** The invariant *)

Lemma wf_init : wf (init (T:=T)).
Proof. split; unfold holds; simpl; intros *; by rewrite lookup_empty. Qed.

Lemma step_wf o w w' : wf w → step o w = Done (tt, w') → wf w'.
Proof.
  intros [HL HU HV] H. destruct o as [a v|a|g a s|g a|g src|dst src|g|g v].
  - apply new_Mutex_inv in H as [Hm ->]. split; [|done..].
    intros g b Hg. specialize (HL g b Hg). unfold primitive in *. simpl.
    rewrite lookup_insert_ne; [done|]. intros ->. by rewrite Hm in HL.
  - apply delete_Mutex_inv in H as (m & Hm & Hu & ->). split; [|done..].
    intros g b Hg. specialize (HL g b Hg). unfold primitive in *. simpl.
    rewrite lookup_delete_ne; [done|]. intros ->. rewrite Hm in HL. simpl in HL. congruence.
  - apply try_lock_inv in H as (m & Hm & Hg & [->|[Hu ->]]).
    + split.
      * intros x b [_ Hx]%holds_refused. by apply (HL x).
      * intros x y b [_ Hx]%holds_refused [_ Hy]%holds_refused. by apply (HU x y b).
      * intros x G b. simpl. destruct (decide (x = g)) as [->|].
        -- rewrite lookup_insert_eq. by intros [= <-].
        -- rewrite lookup_insert_ne by done. apply HV.
    + assert (no_holder a w) as Hno.
      { intros x Hx. apply HL in Hx. unfold primitive in Hx. rewrite Hm in Hx.
        simpl in Hx. congruence. }
      split.
      * intros x b Hx. rewrite primitive_locked_by. case_decide; [done|].
        apply holds_locked_by in Hx as [[_ ->]|[_ Hx]]; [done|by apply (HL x)].
      * intros x y b [[-> ->]|[? Hx]]%holds_locked_by [[-> Eb]|[? Hy]]%holds_locked_by;
          try done; subst; try by (exfalso; eapply Hno).
        by apply (HU x y b).
      * intros x G b. simpl. destruct (decide (x = g)) as [->|].
        -- rewrite lookup_insert_eq. intros [= <-]. simpl. congruence.
        -- rewrite lookup_insert_ne by done. apply HV.
  - apply lock_inv in H as (m & Hm & Hu & Hg & ->).
    assert (no_holder a w) as Hno.
    { intros x Hx. apply HL in Hx. unfold primitive in Hx. rewrite Hm in Hx.
      simpl in Hx. congruence. }
    split.
    + intros x b Hx. rewrite primitive_locked_by. case_decide; [done|].
      apply holds_locked_by in Hx as [[_ ->]|[_ Hx]]; [done|by apply (HL x)].
    + intros x y b [[-> ->]|[? Hx]]%holds_locked_by [[-> Eb]|[? Hy]]%holds_locked_by;
        try done; subst; try by (exfalso; eapply Hno).
      by apply (HU x y b).
    + intros x G b. simpl. destruct (decide (x = g)) as [->|].
      * rewrite lookup_insert_eq. intros [= <-]. simpl. congruence.
      * rewrite lookup_insert_ne by done. apply HV.
  - apply move_ctor_inv in H as (Gs & Hg & Hs & ->).
    eapply wf_assigned; [by split|done].
  - by rewrite step_MoveAssign_Undefined in H.
  - apply drop_inv in H as (G & Hg & H).
    destruct (MutexGuard.mutex G) as [a|] eqn:Hmu.
    + destruct H as (m & Hm & Hl & ->). split.
      * intros x b [Hne Hx]%holds_dropped. apply holds_unlocked in Hx.
        rewrite primitive_dropped, primitive_unlocked.
        case_decide as E; [|by apply (HL x)].
        subst b. exfalso. apply Hne. apply (HU x g a Hx).
        unfold holds. by rewrite Hg, <- Hmu.
      * intros x y b [_ Hx]%holds_dropped [_ Hy]%holds_dropped. by apply (HU x y b).
      * intros x G' b. simpl. intros Hx. apply lookup_delete_Some in Hx as [_ Hx].
        by apply (HV x).
    + subst w'. split.
      * intros x b [_ Hx]%holds_dropped. by apply (HL x).
      * intros x y b [_ Hx]%holds_dropped [_ Hy]%holds_dropped. by apply (HU x y b).
      * intros x G' b. simpl. intros Hx. apply lookup_delete_Some in Hx as [_ Hx].
        by apply (HV x).
  - apply write_inv in H as (G & a & m & Hg & Hv & Hm & ->). split; [|done..].
    intros x b Hx. specialize (HL x b Hx). unfold primitive in *. simpl.
    destruct (decide (a = b)) as [->|].
    + rewrite lookup_insert_eq. simpl. by rewrite Hm in HL.
    + by rewrite lookup_insert_ne.
Qed.

Lemma run_inv_cons o p w w' :
  run (o :: p) w = Done (tt, w') →
  ∃ w1, step o w = Done (tt, w1) ∧ run p w1 = Done (tt, w').
Proof. intros H. simpl in H. apply bind_inv in H as ([] & w1 & ? & ?). eauto. Qed.

Lemma run_inv_nil w w' : run [] w = Done (tt, w') → w' = w.
Proof. intros H. unfold run, mret, M_ret in H. by simplify_eq. Qed.

Lemma run_wf p w w' : wf w → run p w = Done (tt, w') → wf w'.
Proof.
  revert w. induction p as [|o p IH]; intros w Hw H.
  - by apply run_inv_nil in H as ->.
  - apply run_inv_cons in H as (w1 & H1 & H2). eauto using step_wf.
Qed.

(** *** Following one lock through moves and destructions *)

Lemma sole_holder_assigned a h dst src Gs w :
  guards w !! src = Some Gs → dst ≠ h → sole_holder a h w →
  sole_holder a (if decide (src = h) then dst else h) (assigned dst src Gs w).
Proof.
  intros Hs Hne [Hh Hu]. split.
  - apply holds_assigned; [done|]. case_decide as E.
    + subst. split; [done|]. by left.
    + split; [done|]. right. by split.
  - intros x Hx. apply (holds_assigned _ _ _ _ _ _ Hs) in Hx as [Hxs [[-> Hx]|[Hxd Hx]]].
    + apply Hu in Hx. by rewrite decide_True.
    + apply Hu in Hx. subst x. by rewrite decide_False.
Qed.

Lemma no_holder_assigned a dst src Gs w :
  guards w !! src = Some Gs → no_holder a w → no_holder a (assigned dst src Gs w).
Proof.
  intros Hs Hno x Hx.
  apply (holds_assigned _ _ _ _ _ _ Hs) in Hx as [_ [[_ Hx]|[_ Hx]]]; by eapply Hno.
Qed.

Lemma husk_step a o w w' :
  no_holder a w → is_move_or_drop o = true → step o w = Done (tt, w') →
  unlock_count a w' = unlock_count a w ∧ primitive a w' = primitive a w
  ∧ no_holder a w'.
Proof.
  intros Hno Ho H. destruct o as [| | | |g src|dst src|g|]; try discriminate.
  - apply move_ctor_inv in H as (Gs & Hg & Hs & ->).
    split_and!; [done..|by apply no_holder_assigned].
  - by rewrite step_MoveAssign_Undefined in H.
  - apply drop_inv in H as (G & Hg & H).
    destruct (MutexGuard.mutex G) as [b|] eqn:Hmu.
    + destruct H as (m & Hm & Hl & ->).
      assert (a ≠ b) as Hab.
      { intros ->. apply (Hno g). unfold holds. by rewrite Hg, <- Hmu. }
      split_and!.
      * change (unlock_count a (dropped g (unlocked b m w)))
          with (unlock_count a (unlocked b m w)).
        rewrite unlock_count_unlocked. by rewrite decide_False.
      * rewrite primitive_dropped, primitive_unlocked. by rewrite decide_False.
      * intros x [_ Hx]%holds_dropped. by eapply Hno.
    + subst w'. split_and!; [done..|].
      intros x [_ Hx]%holds_dropped. by eapply Hno.
Qed.

Lemma husks_run a p w w' :
  no_holder a w → forallb is_move_or_drop p = true → run p w = Done (tt, w') →
  unlock_count a w' = unlock_count a w ∧ primitive a w' = primitive a w
  ∧ no_holder a w'.
Proof.
  revert w. induction p as [|o p IH]; intros w Hno Hp H.
  - by apply run_inv_nil in H as ->.
  - apply run_inv_cons in H as (w1 & H1 & H2).
    simpl in Hp. apply andb_prop in Hp as [Ho Hp].
    destruct (husk_step a o w w1 Hno Ho H1) as (E1 & E2 & Hno1).
    destruct (IH w1 Hno1 Hp H2) as (E3 & E4 & Hno2).
    split_and!; [congruence..|done].
Qed.

Lemma acquired_sole_holder g a w0 w :
  wf w0 → acquired g a w0 w → sole_holder a g w ∧ trace w = trace w0.
Proof.
  intros Hwf Hacq.
  assert (∃ m, mutexes w0 !! a = Some m ∧ Mutex.mutex m = Unlocked
               ∧ w = locked_by g a m w0) as (m & Hm & Hu & ->).
  { destruct Hacq as [H|(s & H & Hb)].
    - apply lock_inv in H as (m & ? & ? & ? & ?). eauto.
    - apply try_lock_inv in H as (m & Hm & Hg & [->|[Hu ->]]); [|eauto].
      simpl in Hb. by rewrite lookup_insert_eq in Hb. }
  split; [|done]. split.
  - apply holds_locked_by. by left.
  - intros x [[-> _]|[_ Hx]]%holds_locked_by; [done|].
    apply (wf_locked _ Hwf) in Hx. unfold primitive in Hx. rewrite Hm in Hx.
    simpl in Hx. congruence.
Qed.
End Effects.

(** ** Properties of the specification *)

Section Properties.
Context {T : Type} `{!Movable T}.
Implicit Types (w : world T) (a g : addr).

Lemma step_owned a o w w' m :
  step o w = Done (tt, w') →
  leaves_value a o = true →
  mutexes w !! a = Some m →
  ∃ m', mutexes w' !! a = Some m' ∧ Mutex.value m' = Mutex.value m.
Proof.
  intros H Hq Hm. destruct o as [b v|b|g b s|g b|g src|dst src|g|g v];
    simpl in Hq; try discriminate.
  - apply new_Mutex_inv in H as [Hb ->]. simpl.
    rewrite lookup_insert_ne by congruence. eauto.
  - apply delete_Mutex_inv in H as (? & _ & _ & ->). simpl.
    apply bool_decide_eq_true in Hq. rewrite lookup_delete_ne by done. eauto.
  - apply try_lock_inv in H as (mb & Hb & _ & [->|[_ ->]]); simpl; [eauto|].
    destruct (decide (b = a)) as [->|].
    + rewrite lookup_insert_eq. simplify_eq. eauto.
    + rewrite lookup_insert_ne by done. eauto.
  - apply lock_inv in H as (mb & Hb & _ & _ & ->). simpl.
    destruct (decide (b = a)) as [->|].
    + rewrite lookup_insert_eq. simplify_eq. eauto.
    + rewrite lookup_insert_ne by done. eauto.
  - apply move_ctor_inv in H as (? & _ & _ & ->). simpl. eauto.
  - by rewrite step_MoveAssign_Undefined in H.
  - apply drop_inv in H as (G & _ & H). destruct (MutexGuard.mutex G) as [b|].
    + destruct H as (mb & Hb & _ & ->). simpl.
      destruct (decide (b = a)) as [->|].
      * rewrite lookup_insert_eq. simplify_eq. eauto.
      * rewrite lookup_insert_ne by done. eauto.
    + subst w'. simpl. eauto.
Qed.

Lemma run_owned a p w w' m :
  run p w = Done (tt, w') →
  forallb (leaves_value a) p = true →
  mutexes w !! a = Some m →
  ∃ m', mutexes w' !! a = Some m' ∧ Mutex.value m' = Mutex.value m.
Proof.
  revert w m. induction p as [|o p IH]; intros w m H Hq Hm.
  - apply run_inv_nil in H as ->. eauto.
  - apply run_inv_cons in H as (w1 & H1 & H2).
    simpl in Hq. apply andb_prop in Hq as [Ho Hp].
    destruct (step_owned a o w w1 m H1 Ho Hm) as (m1 & Hm1 & E1).
    destruct (IH w1 m1 H2 Hp Hm1) as (m2 & Hm2 & E2).
    exists m2. split; [done|congruence].
Qed.

(** C1, as the code has it: a guard [g] that holds the lock of the Mutex at
    [a], in a world a client program reached, is the destination of a move
    assignment from a live guard [src], possibly [g] itself.  The call is
    undefined.  And when the three assignments of the body have run, no guard
    points to the primitive any more, although it is still held and nothing
    was unlocked; whatever moves and destructions of guards complete from
    there, [unlock] is not called on it.  The lock that [g] acquired is
    released zero times, not once. *)
Theorem move_assign_loses_the_lock p0 w g a src Gs :
  run p0 init = Done (tt, w) →
  holds w g a →
  guards w !! src = Some Gs →
  step (MoveAssign g src) w = Undefined
  ∧ ∃ w1, MutexGuard_move_assign_body g src w = Done (None, w1)
      ∧ no_holder a w1
      ∧ primitive a w1 = Some Locked
      ∧ unlock_count a w1 = unlock_count a w
      ∧ ∀ p w2, forallb is_move_or_drop p = true → run p w1 = Done (tt, w2) →
          unlock_count a w2 = unlock_count a w ∧ primitive a w2 = Some Locked.
Proof.
  intros Hreach Hh Hs.
  assert (wf w) as [HL HU _] by (eapply run_wf; [apply wf_init|done]).
  destruct (holds_alive w g a Hh) as [Gd Hd].
  split; [apply step_MoveAssign_Undefined|].
  eexists. split; [by apply (move_assign_Done g src Gd Gs)|].
  assert (no_holder a (assigned g src Gs w)) as Hno.
  { intros x Hx. apply (holds_assigned _ _ _ _ _ _ Hs) in Hx as [Hxs [[-> Hx]|[Hxd Hx]]].
    - apply Hxs. by apply (HU g src a).
    - apply Hxd. by apply (HU x g a). }
  assert (primitive a (assigned g src Gs w) = Some Locked) as Hl by apply (HL g a Hh).
  split_and!; [done..|].
  intros p w2 Hp Hrun.
  destruct (husks_run a p _ w2 Hno Hp Hrun) as (E1 & E2 & _).
  split; [done|]. by rewrite E2.
Qed.

(** C2: a Mutex constructed with [V], then any statements that neither write
    through a guard nor end the lifetime of the Mutex: [unwrap] returns [V]. *)
Theorem unwrap_returns_initial_value a (V : T) p w0 w1 w2 :
  Mutex_ctor a V w0 = Done (tt, w1) →
  forallb (leaves_value a) p = true →
  run p w1 = Done (tt, w2) →
  owned a w2 = Some V ∧ ∃ w3, Mutex_unwrap a w2 = Done (V, w3).
Proof.
  intros Hc Hq Hrun.
  apply (new_Mutex_inv a V w0 w1) in Hc as [Hfresh ->].
  destruct (run_owned a p _ w2 (Mutex.mk Unlocked V) Hrun Hq) as (m & Hm & Hv).
  { simpl. apply lookup_insert_eq. }
  simpl in Hv. subst V. split.
  - unfold owned. by rewrite Hm.
  - unfold_M. rewrite Hm. simpl. rewrite Hm. eauto.
Qed.

(** C3: on a Mutex whose primitive is unlocked, [lock()] returns, and the
    guard it returns has both references non-null and converts to [true];
    whenever [lock()] returns at all, the guard converts to [true]. *)
Theorem lock_returns_valid_guard w a m :
  mutexes w !! a = Some m →
  Mutex.mutex m = Unlocked →
  (∃ G w', Mutex_lock a w = Done (G, w')
      ∧ MutexGuard.value G ≠ None ∧ MutexGuard.mutex G ≠ None
      ∧ MutexGuard_bool G = true
      ∧ primitive a w' = Some Locked)
  ∧ (∀ w0 G w', Mutex_lock a w0 = Done (G, w') → MutexGuard_bool G = true).
Proof.
  intros Hm Hu. split.
  - eexists _, _. unfold_M. rewrite Hm, Hu. simpl. rewrite Hm.
    split; [reflexivity|]. simpl. unfold primitive. simpl.
    by rewrite lookup_insert_eq.
  - intros w0 G w' H. unfold_M. repeat case_match; by simplify_eq.
Qed.

(** C4: on a Mutex whose primitive is held, [try_lock()] returns a guard
    with both references null, which converts to [false], and leaves the
    whole world as it was. *)
Theorem try_lock_held_fails w a m spurious :
  mutexes w !! a = Some m →
  Mutex.mutex m = Locked →
  ∃ G, Mutex_try_lock a spurious w = Done (G, w)
    ∧ MutexGuard.value G = None ∧ MutexGuard.mutex G = None
    ∧ MutexGuard_bool G = false.
Proof.
  intros Hm Hl. exists (MutexGuard.mk None None).
  split; [|done]. unfold_M. rewrite Hm, Hl. simpl. rewrite Hm.
  rewrite <- Hl, Mutex_eta, insert_id by done. by rewrite world_eta.
Qed.


(** C5, as the code has it: the constructor initialises the [value] member
    with the copy constructor of [T] (one call, no call of the move
    constructor), the primitive starts unlocked, and construction in free
    storage always completes. *)
Theorem Mutex_ctor_copies_value a (v : T) w :
  mutexes w !! a = None →
  ∃ w', Mutex_ctor a v w = Done (tt, w')
    ∧ trace w' = EvCopy :: trace w
    ∧ copy_count w' = S (copy_count w)
    ∧ primitive a w' = Some Unlocked
    ∧ owned a w' = Some v.
Proof.
  intros Hm. eexists. unfold_M. simpl. rewrite Hm.
  split; [reflexivity|]. unfold copy_count, primitive, owned. simpl.
  rewrite lookup_insert_eq. split_and!; try done.
Qed.


(** C7, amended: the body of the move assignment, with a destination [dst]
    that holds the lock of the Mutex at [a].  Its three assignments run to
    the end of the body without a [return]; then no Mutex has changed and
    nothing was unlocked, so the primitive of [a] is still held; guards other
    than the two operands have the references they had; for distinct
    operands [dst] has the references [src] had and [src] has a null [mutex]
    reference; and when [dst] was the only guard pointing to the primitive,
    no guard points to it any more.  Whether the call returns is left out. *)
Theorem move_assign_leaks_held_lock w dst src Gd Gs a :
  guards w !! dst = Some Gd →
  MutexGuard.mutex Gd = Some a →
  primitive a w = Some Locked →
  guards w !! src = Some Gs →
  ∃ r w', MutexGuard_move_assign_body dst src w = Done (r, w')
    ∧ r = None
    ∧ mutexes w' = mutexes w
    ∧ trace w' = trace w
    ∧ primitive a w' = Some Locked
    ∧ (∀ g, g ≠ dst → g ≠ src → guards w' !! g = guards w !! g)
    ∧ (src ≠ dst → guards w' !! dst = Some Gs
                 ∧ guards w' !! src = Some (MutexGuard.mk (MutexGuard.value Gs) None))
    ∧ ((∀ g, holds w g a → g = dst) → no_holder a w').
Proof.
  intros Hd Hmu Hl Hs. eexists _, _.
  split; [by apply (move_assign_Done dst src Gd Gs)|].
  split_and!; try done.
  - intros g ? ?. simpl. by rewrite !lookup_insert_ne.
  - intros Hne. simpl. split.
    + by rewrite lookup_insert_ne, lookup_insert_eq.
    + by rewrite lookup_insert_eq.
  - intros Hsole x Hx.
    apply (holds_assigned _ _ _ _ _ _ Hs) in Hx as [Hxs [[-> Hx]|[Hxd Hx]]].
    + apply Hsole in Hx. congruence.
    + apply Hsole in Hx. congruence.
Qed.

(** What a member-wise move construction would do with a relocatable
    primitive: the new Mutex takes the relocated primitive and the value. *)
Lemma memberwise_move_ctor_transfers mv this other m w :
  mutexes w !! other = Some m →
  mutexes w !! this = None →
  ∃ w', memberwise_move_ctor mv this other w = Done (tt, w')
    ∧ primitive this w' = Some (mv (Mutex.mutex m)).1
    ∧ owned this w' = Some (Mutex.value m).
Proof.
  intros Ho Ht. assert (this ≠ other) as Hne by congruence.
  unfold memberwise_move_ctor, primitive, owned. unfold_M. rewrite Ho. simpl.
  destruct (mv (Mutex.mutex m)) as [p p_husk]. simpl. rewrite Ht. simpl.
  rewrite lookup_insert_ne, Ho by done. eexists. split; [done|]. simpl.
  by rewrite lookup_insert_ne, lookup_insert_eq.
Qed.

(** C8, as the code has it: the defaulted move constructor and move
    assignment of [Mutex] are member-wise, and the [std::mutex] member has
    neither: both are defined as deleted, there is no move of a [Mutex]. *)
Theorem Mutex_move_is_deleted :
  Mutex_move_ctor (T:=T) = None ∧ Mutex_move_assign (T:=T) = None.
Proof. split; reflexivity. Qed.

(** C9, as the code has it: move-assigning to itself a guard [g] that holds
    the lock of the Mutex at [a], and is the only guard pointing to its
    primitive.  The three assignments of the body run and leave the [mutex]
    reference of [g] null, so that [g] converts to [false], while nothing is
    unlocked, the primitive is still held and no guard points to it.  But
    the end of the body is then reached without a [return]: the call is
    undefined, and there is no state after it for a destruction to run in. *)
Theorem self_move_assign_drops_lock w g G a :
  guards w !! g = Some G →
  MutexGuard.mutex G = Some a →
  primitive a w = Some Locked →
  (∀ x, holds w x a → x = g) →
  MutexGuard_move_assign g g w = Undefined
  ∧ step (MoveAssign g g) w = Undefined
  ∧ (∀ p, run (MoveAssign g g :: p) w = Undefined)
  ∧ ∃ w1, MutexGuard_move_assign_body g g w = Done (None, w1)
      ∧ MutexGuard.mutex <$> guards w1 !! g = Some None
      ∧ MutexGuard_bool <$> guards w1 !! g = Some false
      ∧ trace w1 = trace w
      ∧ mutexes w1 = mutexes w
      ∧ primitive a w1 = Some Locked
      ∧ no_holder a w1.
Proof.
  intros Hg Hmu Hl Hsole.
  split; [apply move_assign_call_Undefined|].
  split; [apply step_MoveAssign_Undefined|].
  split.
  { intros p. simpl. unfold mbind at 1, M_bind at 1.
    by rewrite (step_MoveAssign_Undefined g g w). }
  eexists. split; [by apply (move_assign_Done g g G G)|].
  assert (guards (assigned g g G w) !! g
          = Some (MutexGuard.mk (MutexGuard.value G) None)) as Hg1.
  { simpl. by rewrite lookup_insert_eq. }
  split_and!; try done.
  - by rewrite Hg1.
  - by rewrite Hg1.
  - intros x Hx. apply (holds_assigned _ _ _ _ _ _ Hg) in Hx as [Hxs [[-> Hx]|[Hxd Hx]]].
    + done.
    + apply Hsole in Hx. congruence.
Qed.

(** C10, as the code has it: on two live guards the body of the move
    assignment operator runs to its end, and the end is reached without a
    [return] statement; no call yields a reference, every call is
    undefined. *)
Theorem move_assign_returns_no_reference w this guard Gt Gg :
  guards w !! this = Some Gt →
  guards w !! guard = Some Gg →
  (∃ w', MutexGuard_move_assign_body this guard w = Done (None, w'))
  ∧ (∀ w0 x y r w', MutexGuard_move_assign_body x y w0 = Done (r, w') → r = None)
  ∧ (∀ w0 x y, MutexGuard_move_assign x y w0 = Undefined).
Proof.
  intros Ht Hg. split_and!.
  - eexists. by apply (move_assign_Done this guard Gt Gg).
  - intros w0 x y r w' H. by apply move_assign_inv in H as (? & ? & _ & _ & -> & _).
  - intros w0 x y. apply move_assign_call_Undefined.
Qed.

End Properties.


(** ** Concrete instances *)


Lemma move_assign_loses_the_lock_witness :
  run [NewMutex 1 0%Z; Lock 1 1] init = Done (tt, held_world)
  ∧ holds held_world 1 1
  ∧ step (MoveAssign 1 1) held_world = Undefined
  ∧ ∃ w1, MutexGuard_move_assign_body 1 1 held_world = Done (None, w1)
      ∧ no_holder 1 w1
      ∧ primitive 1 w1 = Some Locked
      ∧ unlock_count 1 w1 = unlock_count 1 held_world
      ∧ ∀ p w2, forallb is_move_or_drop p = true → run p w1 = Done (tt, w2) →
          unlock_count 1 w2 = unlock_count 1 held_world
          ∧ primitive 1 w2 = Some Locked.
Proof.
  split; [by_eval|]. split; [by_eval|].
  apply (move_assign_loses_the_lock [NewMutex 1 0%Z; Lock 1 1] held_world 1 1 1
           (MutexGuard.mk (Some 1%positive) (Some 1%positive))); by_eval.
Defined.

Lemma unwrap_returns_initial_value_witness :
  ∃ w2 : world Z,
    Mutex_ctor 1 0%Z init = Done (tt, free_world)
    ∧ run [TryLock 1 1 false; Drop 1; Lock 2 1; MoveCtor 3 2; Drop 3; Drop 2] free_world
      = Done (tt, w2)
    ∧ owned 1 w2 = Some 0%Z
    ∧ ∃ w3, Mutex_unwrap 1 w2 = Done (0%Z, w3).
Proof.
  eexists. split; [by_eval|]. split; [by_eval|].
  apply (unwrap_returns_initial_value 1 0%Z
           [TryLock 1 1 false; Drop 1; Lock 2 1; MoveCtor 3 2; Drop 3; Drop 2]
           init free_world); by_eval.
Defined.

Lemma lock_returns_valid_guard_witness :
  ∃ G w', Mutex_lock 1 free_world = Done (G, w')
    ∧ MutexGuard.value G ≠ None ∧ MutexGuard.mutex G ≠ None
    ∧ MutexGuard_bool G = true
    ∧ primitive 1 w' = Some Locked.
Proof.
  apply (lock_returns_valid_guard free_world 1 (Mutex.mk Unlocked 0%Z)); by_eval.
Defined.

Lemma try_lock_held_fails_witness :
  ∃ G, Mutex_try_lock 1 false held_world = Done (G, held_world)
    ∧ MutexGuard.value G = None ∧ MutexGuard.mutex G = None
    ∧ MutexGuard_bool G = false.
Proof.
  apply (try_lock_held_fails held_world 1 (Mutex.mk Locked 0%Z) false); by_eval.
Defined.

Lemma Mutex_ctor_copies_value_witness :
  ∃ w', Mutex_ctor 1 0%Z init = Done (tt, w')
    ∧ trace w' = EvCopy :: trace (init (T:=Z))
    ∧ copy_count w' = S (copy_count (init (T:=Z)))
    ∧ primitive 1 w' = Some Unlocked
    ∧ owned 1 w' = Some 0%Z.
Proof. apply (Mutex_ctor_copies_value 1 0%Z init). by_eval. Defined.


(** C7 as stated fails: with two held Mutexes, the body of [g1 = std::move(g2)]
    changes the [mutex] reference of the source [g2] as well, not only the
    references of the destination. *)
Lemma move_assign_changes_the_source :
  ¬ (∀ (w : world Z) dst src a r w',
       holds w dst a →
       MutexGuard_move_assign_body dst src w = Done (r, w') →
       ∀ g, g ≠ dst → guards w' !! g = guards w !! g).
Proof.
  intros H.
  assert (∃ w', MutexGuard_move_assign_body 1 2 two_locks_world = Done (None, w')
                ∧ guards w' !! 2%positive
                  = Some (MutexGuard.mk (Some 2%positive) None))
    as (w' & Hrun & Hg).
  { eexists. split; by_eval. }
  assert (holds two_locks_world 1 1) as Hh by by_eval.
  pose proof (H two_locks_world 1%positive 2%positive 1%positive None w' Hh Hrun
                2%positive ltac:(done)) as E.
  rewrite Hg in E. vm_compute in E. discriminate E.
Qed.

Lemma move_assign_leaks_held_lock_witness :
  ∃ r w', MutexGuard_move_assign_body 1 2 two_locks_world = Done (r, w')
    ∧ r = None
    ∧ mutexes w' = mutexes two_locks_world
    ∧ trace w' = trace two_locks_world
    ∧ primitive 1 w' = Some Locked
    ∧ guards w' !! 1%positive = Some (MutexGuard.mk (Some 2%positive) (Some 2%positive))
    ∧ guards w' !! 2%positive = Some (MutexGuard.mk (Some 2%positive) None)
    ∧ no_holder 1 w'.
Proof.
  destruct (move_assign_leaks_held_lock two_locks_world 1 2
              (MutexGuard.mk (Some 1%positive) (Some 1%positive))
              (MutexGuard.mk (Some 2%positive) (Some 2%positive)) 1)
    as (r & w' & H1 & H2 & H3 & H4 & H5 & _ & H7 & H8); [by_eval..|].
  destruct (H7 ltac:(done)) as [E1 E2].
  exists r, w'. split_and!; [done..|]. apply H8.
  intros g Hg. destruct (decide (g = 1%positive)) as [->|Hne]; [done|].
  exfalso. unfold holds, two_locks_world in Hg. simpl in Hg.
  destruct (decide (g = 2%positive)) as [->|Hne2].
  - by rewrite lookup_insert_eq in Hg.
  - by rewrite lookup_insert_ne, lookup_singleton_ne in Hg.
Defined.

Lemma self_move_assign_drops_lock_witness :
  MutexGuard_move_assign 1 1 held_world = Undefined
  ∧ step (MoveAssign 1 1) held_world = Undefined
  ∧ ∃ w1, MutexGuard_move_assign_body 1 1 held_world = Done (None, w1)
      ∧ MutexGuard_bool <$> guards w1 !! 1%positive = Some false
      ∧ trace w1 = trace held_world
      ∧ primitive 1 w1 = Some Locked
      ∧ no_holder 1 w1.
Proof.
  destruct (self_move_assign_drops_lock held_world 1
              (MutexGuard.mk (Some 1%positive) (Some 1%positive)) 1)
    as (H1 & H2 & _ & w1 & H4 & _ & H6 & H7 & _ & H9 & H10); [by_eval..| |].
  - intros x Hx. destruct (decide (x = 1%positive)) as [->|Hne]; [done|].
    exfalso. unfold holds, held_world in Hx. simpl in Hx.
    by rewrite lookup_singleton_ne in Hx.
  - split; [done|]. split; [done|]. exists w1. by split_and!.
Defined.

Lemma move_assign_returns_no_reference_witness :
  ∃ w', MutexGuard_move_assign_body 2 1 contended_world = Done (None, w').
Proof.
  apply (move_assign_returns_no_reference contended_world 2 1
           (MutexGuard.mk None None)
           (MutexGuard.mk (Some 1%positive) (Some 1%positive))); by_eval.
Defined.

(** ** The example program *)

(** [main] of [example.cpp] up to [unwrap]: a successful [try_lock()] and a
    [lock()], each followed by an increment through the guard; [unwrap] then
    returns 2. *)
Example main_unwraps_two :
  ∃ w w', run [NewMutex 1 0%Z; TryLock 2 1 false; Write 2 1%Z; Drop 2;
               Lock 3 1; Write 3 2%Z; Drop 3] init = Done (tt, w)
    ∧ Mutex_unwrap 1 w = Done (2%Z, w')
    ∧ unlock_count 1 w = 2.
Proof. eexists _, _. split_and!; by_eval. Qed.

(** [dont_do_this] of [example.cpp]: the local Mutex dies while the guard
    returned by [lock()] still holds its primitive. *)
Example dont_do_this_is_undefined :
  run [NewMutex 2 0%Z; Lock 3 2; DeleteMutex 2] free_world = Undefined.
Proof. by_eval. Qed.

(** While one guard holds the lock, [try_lock()] is refused; once that guard
    is destroyed, [try_lock()] succeeds. *)
Example try_lock_after_release :
  ∃ w, run [TryLock 2 1 false; Drop 1; TryLock 3 1 false] held_world = Done (tt, w)
    ∧ MutexGuard_bool <$> guards w !! 2%positive = Some false
    ∧ MutexGuard_bool <$> guards w !! 3%positive = Some true.
Proof. eexists. split_and!; by_eval. Qed.

(** * Further properties *)

Section Extra.
Context {T : Type} `{!Movable T}.
Implicit Types (w : world T) (a g : addr).

Lemma reachable_wf p w : run p init = Done (tt, w) → wf w.
Proof. intros H. eapply run_wf; [apply wf_init|done]. Qed.

Lemma holds_lookup w g a :
  holds w g a ↔ ∃ G, guards w !! g = Some G ∧ MutexGuard.mutex G = Some a.
Proof.
  unfold holds. destruct (guards w !! g) as [G|]; simpl; split.
  - intros [= E]. eauto.
  - intros (G' & [= <-] & E). by rewrite E.
  - done.
  - by intros (? & ? & _).
Qed.

Lemma primitive_lookup a w s :
  primitive a w = Some s ↔ ∃ m, mutexes w !! a = Some m ∧ Mutex.mutex m = s.
Proof.
  unfold primitive. destruct (mutexes w !! a) as [m|]; simpl; split.
  - intros [= E]. eauto.
  - intros (m' & [= <-] & E). by rewrite E.
  - done.
  - by intros (? & ? & _).
Qed.

Lemma store_same a m w s :
  mutexes w !! a = Some m → Mutex.mutex m = s →
  World (<[a:=Mutex.mk s (Mutex.value m)]> (mutexes w)) (guards w) (trace w) = w.
Proof. intros Hm <-. by rewrite Mutex_eta, insert_id, world_eta. Qed.

(** X1: in a world a client program reached, two guards with a non-null
    [mutex] reference never point to the same Mutex, and the primitive a guard
    points to is held. *)
Theorem reachable_mutual_exclusion p w g1 g2 a :
  run p init = Done (tt, w) →
  holds w g1 a → holds w g2 a →
  g1 = g2 ∧ primitive a w = Some Locked.
Proof.
  intros Hr H1 H2. apply reachable_wf in Hr as [HL HU _]. split; eauto.
Qed.

(** X2: in a world a client program reached, a guard that converts to
    [true] can be dereferenced: [operator*] yields the [value] member of the
    live Mutex whose held primitive the guard points to. *)
Theorem valid_guard_dereferences p w g G :
  run p init = Done (tt, w) →
  guards w !! g = Some G →
  MutexGuard_bool G = true →
  ∃ a m, MutexGuard.mutex G = Some a
    ∧ MutexGuard_deref g w = Done (a, w)
    ∧ mutexes w !! a = Some m ∧ Mutex.mutex m = Locked.
Proof.
  intros Hr Hg Hb. apply reachable_wf in Hr as [HL _ HV].
  unfold MutexGuard_bool in Hb. destruct (MutexGuard.mutex G) as [a|] eqn:E; [|done].
  assert (holds w g a) as Hh by (apply holds_lookup; eauto).
  apply HL, primitive_lookup in Hh as (m & Hm & Hl).
  exists a, m. split_and!; try done.
  unfold_M. rewrite Hg. simpl. rewrite (HV g G a Hg E), Hm. done.
Qed.

(** X3: what [try_lock()] returns.  Either the guard converts to [true]: the
    primitive was free and is now held, the attempt did not fail spuriously,
    both references point into this Mutex, and nothing else changed.  Or it
    converts to [false]: the primitive was held or the attempt failed
    spuriously, both references are null and the world is as it was. *)
Theorem try_lock_outcome a spurious w G w' :
  Mutex_try_lock a spurious w = Done (G, w') →
  (MutexGuard_bool G = true ∧ spurious = false
     ∧ primitive a w = Some Unlocked ∧ primitive a w' = Some Locked
     ∧ G = MutexGuard.mk (Some a) (Some a)
     ∧ owned a w' = owned a w
     ∧ (∀ b, b ≠ a → mutexes w' !! b = mutexes w !! b)
     ∧ guards w' = guards w ∧ trace w' = trace w)
  ∨ (MutexGuard_bool G = false
     ∧ (spurious = true ∨ primitive a w = Some Locked)
     ∧ G = MutexGuard.mk None None ∧ w' = w).
Proof.
  intros H. unfold_M. unfold primitive, owned.
  destruct (mutexes w !! a) as [m|] eqn:Hm; [|done]. simpl in H.
  destruct (Mutex.mutex m) eqn:Hu, spurious; simpl in H; rewrite Hm in H;
    simpl in H; simplify_eq; simpl.
  - right. rewrite (store_same a m w Unlocked) by done. auto.
  - left. rewrite lookup_insert_eq, Hu. simpl. split_and!; try done.
    intros b ?. by rewrite lookup_insert_ne.
  - right. rewrite (store_same a m w Locked), Hu by done. auto.
  - right. rewrite (store_same a m w Locked), Hu by done. auto.
Qed.

(** X4: while a guard holds the primitive of a Mutex, in a world a client
    program reached: every [try_lock()] on it is refused and changes nothing,
    [lock()] on it blocks, and ending the lifetime of the Mutex is undefined. *)
Theorem held_Mutex_refuses p w g a :
  run p init = Done (tt, w) →
  holds w g a →
  (∀ spurious, Mutex_try_lock a spurious w = Done (MutexGuard.mk None None, w))
  ∧ Mutex_lock a w = Blocked
  ∧ Mutex_dtor a w = Undefined.
Proof.
  intros Hr Hh. apply reachable_wf in Hr as [HL _ _].
  apply HL, primitive_lookup in Hh as (m & Hm & Hl). split_and!.
  - intros s. unfold_M. rewrite Hm, Hl. simpl. rewrite Hm.
    by rewrite (store_same a m w Locked).
  - unfold_M. by rewrite Hm, Hl.
  - unfold_M. by rewrite Hm, Hl.
Qed.

(** X5: destroying a guard that holds a primitive, in a world a client
    program reached, completes, calls [unlock] once, leaves the primitive free
    and the owned value as it was; a following [try_lock()] that does not fail
    spuriously gives a guard that converts to [true]. *)
Theorem drop_releases_for_next_try_lock p w g a :
  run p init = Done (tt, w) →
  holds w g a →
  ∃ w1, step (Drop g) w = Done (tt, w1)
    ∧ unlock_count a w1 = S (unlock_count a w)
    ∧ primitive a w1 = Some Unlocked
    ∧ owned a w1 = owned a w
    ∧ guards w1 = delete g (guards w)
    ∧ ∃ G w2, Mutex_try_lock a false w1 = Done (G, w2) ∧ MutexGuard_bool G = true.
Proof.
  intros Hr Hh. apply reachable_wf in Hr as [HL _ _].
  pose proof Hh as (G & Hg & Hmu)%holds_lookup.
  apply HL, primitive_lookup in Hh as (m & Hm & Hl).
  eexists. split; [by apply (drop_held_Done g G a m)|].
  split_and!.
  - change (unlock_count a (dropped g (unlocked a m w)))
      with (unlock_count a (unlocked a m w)).
    rewrite unlock_count_unlocked. by rewrite decide_True.
  - rewrite primitive_dropped, primitive_unlocked. by rewrite decide_True.
  - unfold owned. simpl. by rewrite lookup_insert_eq, Hm.
  - done.
  - eexists _, _. unfold_M. simpl. rewrite lookup_insert_eq. simpl.
    rewrite lookup_insert_eq. done.
Qed.

(** X6: after a move construction the moved-from guard converts to [false],
    yet its [value] reference is kept: [operator*] on it still yields the
    value of the Mutex, and a write through it goes to the owned value. *)
Theorem moved_from_guard_keeps_access w g src G a w1 :
  guards w !! src = Some G →
  MutexGuard.value G = Some a →
  is_Some (mutexes w !! a) →
  step (MoveCtor g src) w = Done (tt, w1) →
  MutexGuard_bool <$> guards w1 !! src = Some false
  ∧ MutexGuard_deref src w1 = Done (a, w1)
  ∧ ∀ v, ∃ w2, step (Write src v) w1 = Done (tt, w2) ∧ owned a w2 = Some v.
Proof.
  intros Hs Hv [m Hm] H. apply move_ctor_inv in H as (Gs & Hg & Hs' & ->).
  assert (Gs = G) as -> by congruence.
  assert (guards (assigned g src G w) !! src = Some (MutexGuard.mk (Some a) None)) as E.
  { simpl. by rewrite lookup_insert_eq, Hv. }
  split_and!.
  - by rewrite E.
  - unfold MutexGuard_deref, get_value, load_guard, load_Mutex, mbind, M_bind, mret, M_ret.
    rewrite E. simpl. by rewrite Hm.
  - intros v. eexists. unfold step, MutexGuard_deref, get_value, load_guard, load_Mutex,
      store_Mutex, mbind, M_bind, mret, M_ret.
    rewrite E. simpl. rewrite Hm. simpl. rewrite Hm. simpl. rewrite Hm.
    split; [done|]. unfold owned. simpl. by rewrite lookup_insert_eq.
Qed.

(** X7: move construction into free storage from a live guard completes;
    the new guard has the references the source had, the source keeps its
    [value] reference and converts to [false], and no other guard, no Mutex
    and nothing in the trace changes. *)
Theorem move_ctor_transfers w g src G :
  guards w !! g = None →
  guards w !! src = Some G →
  ∃ w1, MutexGuard_move_ctor g src w = Done (tt, w1)
    ∧ guards w1 !! g = Some G
    ∧ guards w1 !! src = Some (MutexGuard.mk (MutexGuard.value G) None)
    ∧ MutexGuard_bool <$> guards w1 !! src = Some false
    ∧ (∀ x, x ≠ g → x ≠ src → guards w1 !! x = guards w !! x)
    ∧ mutexes w1 = mutexes w ∧ trace w1 = trace w.
Proof.
  intros Hg Hs. assert (g ≠ src) as Hne by congruence.
  eexists. split; [by apply move_ctor_Done|]. simpl. split_and!; try done.
  - by rewrite lookup_insert_ne, lookup_insert_eq.
  - by rewrite lookup_insert_eq.
  - by rewrite lookup_insert_eq.
  - intros x ? ?. by rewrite !lookup_insert_ne.
Qed.

Lemma holds_functional w g a b : holds w g a → holds w g b → a = b.
Proof. unfold holds. congruence. Qed.

Lemma holds_same_guards w w' g a : guards w' = guards w → holds w g a → holds w' g a.
Proof. unfold holds. by intros ->. Qed.

Lemma step_covered o w w' :
  covered w → is_move_assign o = false → step o w = Done (tt, w') → covered w'.
Proof.
  intros Hc Ho H. destruct o as [a v|a|g a s|g a|g src|dst src|g|g v]; try discriminate.
  - apply new_Mutex_inv in H as [Hm ->]. intros b Hb. unfold primitive in Hb. simpl in Hb.
    destruct (decide (a = b)) as [->|Hne].
    + by rewrite lookup_insert_eq in Hb.
    + rewrite lookup_insert_ne in Hb by done. by apply Hc.
  - apply delete_Mutex_inv in H as (m & Hm & Hu & ->). intros b Hb.
    unfold primitive in Hb. simpl in Hb. destruct (decide (a = b)) as [->|Hne].
    + by rewrite lookup_delete_eq in Hb.
    + rewrite lookup_delete_ne in Hb by done. by apply Hc.
  - apply try_lock_inv in H as (m & Hm & Hg & [->|[Hu ->]]).
    + intros b Hb. destruct (Hc b Hb) as [x Hx]. exists x. apply holds_refused.
      split; [|done]. intros ->. apply holds_alive in Hx as [? ?]. congruence.
    + intros b Hb. rewrite primitive_locked_by in Hb. case_decide as E.
      * subst. exists g. apply holds_locked_by. by left.
      * destruct (Hc b Hb) as [x Hx]. exists x. apply holds_locked_by. right.
        split; [|done]. intros ->. apply holds_alive in Hx as [? ?]. congruence.
  - apply lock_inv in H as (m & Hm & Hu & Hg & ->).
    intros b Hb. rewrite primitive_locked_by in Hb. case_decide as E.
    + subst. exists g. apply holds_locked_by. by left.
    + destruct (Hc b Hb) as [x Hx]. exists x. apply holds_locked_by. right.
      split; [|done]. intros ->. apply holds_alive in Hx as [? ?]. congruence.
  - apply move_ctor_inv in H as (Gs & Hg & Hs & ->).
    intros b Hb. destruct (Hc b Hb) as [x Hx].
    destruct (decide (x = src)) as [->|Hne].
    + exists g. apply holds_assigned; [done|]. split; [congruence|]. by left.
    + exists x. apply holds_assigned; [done|]. split; [done|]. right.
      split; [|done]. intros ->. apply holds_alive in Hx as [? ?]. congruence.
  - apply drop_inv in H as (G & Hg & H). destruct (MutexGuard.mutex G) as [a|] eqn:Hmu.
    + destruct H as (m & Hm & Hl & ->). intros b Hb.
      rewrite primitive_dropped, primitive_unlocked in Hb. case_decide as E; [done|].
      destruct (Hc b Hb) as [x Hx]. exists x. apply holds_dropped. split; [|done].
      intros ->. apply E. apply (holds_functional w g); [done|].
      apply holds_lookup. eauto.
    + subst w'. intros b Hb. destruct (Hc b Hb) as [x Hx]. exists x.
      apply holds_dropped. split; [|done]. intros ->.
      apply holds_lookup in Hx as (G' & ? & ?). congruence.
  - apply write_inv in H as (G & a & m & Hg & Hv & Hm & ->). intros b Hb.
    apply Hc. unfold primitive in *. simpl in Hb. destruct (decide (a = b)) as [->|Hne].
    + rewrite lookup_insert_eq in Hb. simpl in Hb. by rewrite Hm.
    + by rewrite lookup_insert_ne in Hb.
Qed.

Lemma run_covered p w w' :
  covered w → forallb (λ o, negb (is_move_assign o)) p = true →
  run p w = Done (tt, w') → covered w'.
Proof.
  revert w. induction p as [|o p IH]; intros w Hc Hp H.
  - by apply run_inv_nil in H as ->.
  - apply run_inv_cons in H as (w1 & H1 & H2). simpl in Hp.
    apply andb_prop in Hp as [Ho Hp]. apply negb_true_iff in Ho.
    eauto using step_covered.
Qed.

(** X8: a client program without move assignment never loses a lock: in the
    world it reaches every held primitive has a guard pointing to it, and once
    no guard is alive no primitive is held. *)
Theorem no_leak_without_move_assign p w :
  run p init = Done (tt, w) →
  forallb (λ o, negb (is_move_assign o)) p = true →
  (∀ a, primitive a w = Some Locked → ∃ g, holds w g a)
  ∧ (guards w = ∅ → ∀ a, primitive a w ≠ Some Locked).
Proof.
  intros Hr Hp.
  assert (covered w) as Hc.
  { eapply run_covered; [|done..]. intros a Ha. unfold primitive in Ha. simpl in Ha.
    by rewrite lookup_empty in Ha. }
  split; [done|]. intros He a Ha. destruct (Hc a Ha) as [g Hg].
  unfold holds in Hg. rewrite He, lookup_empty in Hg. done.
Qed.

Lemma step_constructor_calls o w w' :
  step o w = Done (tt, w') →
  copy_count w' = (if is_new_Mutex o then S (copy_count w) else copy_count w)
  ∧ move_count w' = move_count w.
Proof.
  intros H. destruct o as [a v|a|g a s|g a|g src|dst src|g|g v]; simpl.
  - by apply new_Mutex_inv in H as [_ ->].
  - by apply delete_Mutex_inv in H as (? & _ & _ & ->).
  - by apply try_lock_inv in H as (? & _ & _ & [->|[_ ->]]).
  - by apply lock_inv in H as (? & _ & _ & _ & ->).
  - by apply move_ctor_inv in H as (? & _ & _ & ->).
  - by rewrite step_MoveAssign_Undefined in H.
  - apply drop_inv in H as (G & _ & H). destruct (MutexGuard.mutex G).
    + by destruct H as (? & _ & _ & ->).
    + by subst.
  - by apply write_inv in H as (? & ? & ? & _ & _ & _ & ->).
Qed.

(** X9: acquiring, moving and destroying guards, writing through them and
    destroying a Mutex call no constructor of [T]: over any program that
    constructs no Mutex the numbers of calls of the copy constructor and of
    the move constructor stay as they were. *)
Theorem guards_construct_no_value p w w' :
  forallb (λ o, negb (is_new_Mutex o)) p = true →
  run p w = Done (tt, w') →
  copy_count w' = copy_count w ∧ move_count w' = move_count w.
Proof.
  revert w. induction p as [|o p IH]; intros w Hp H.
  - by apply run_inv_nil in H as ->.
  - apply run_inv_cons in H as (w1 & H1 & H2). simpl in Hp.
    apply andb_prop in Hp as [Ho Hp]. apply negb_true_iff in Ho.
    destruct (step_constructor_calls o w w1 H1) as [E1 E2]. rewrite Ho in E1.
    destruct (IH w1 Hp H2) as [E3 E4]. split; congruence.
Qed.

(** X10: a write through a guard whose [value] reference points into the
    Mutex at [a] changes no guard, no primitive and nothing in the trace; and
    after any further statements that neither write through a guard nor end
    the lifetime of the Mutex, [unwrap] returns the written value. *)
Theorem unwrap_returns_last_write w g a (v : T) w1 p w2 :
  MutexGuard.value <$> guards w !! g = Some (Some a) →
  step (Write g v) w = Done (tt, w1) →
  forallb (leaves_value a) p = true →
  run p w1 = Done (tt, w2) →
  (guards w1 = guards w ∧ trace w1 = trace w ∧ ∀ b, primitive b w1 = primitive b w)
  ∧ owned a w2 = Some v
  ∧ ∃ w3, Mutex_unwrap a w2 = Done (v, w3).
Proof.
  intros Hv H Hp Hrun.
  apply write_inv in H as (G & a' & m & Hg & Hv' & Hm & ->).
  rewrite Hg in Hv. simpl in Hv. assert (a' = a) as -> by congruence.
  split.
  { split_and!; [done..|]. intros b. unfold primitive. simpl.
    destruct (decide (a = b)) as [->|].
    - by rewrite lookup_insert_eq, Hm.
    - by rewrite lookup_insert_ne. }
  destruct (run_owned a p _ w2 (Mutex.mk (Mutex.mutex m) v) Hrun Hp) as (m2 & Hm2 & E).
  { simpl. apply lookup_insert_eq. }
  simpl in E. subst v. split.
  - unfold owned. by rewrite Hm2.
  - unfold_M. rewrite Hm2. simpl. rewrite Hm2. eauto.
Qed.

(** X11: [unwrap] does not look at the primitive: while a guard holds it, in
    a world a client program reached, [unwrap] completes and returns the
    owned value; the primitive stays held, the guard keeps pointing to it,
    [unlock] is not called, and the Mutex is left with the moved-from value. *)
Theorem unwrap_ignores_lock p w g a :
  run p init = Done (tt, w) →
  holds w g a →
  ∃ m w', mutexes w !! a = Some m
    ∧ Mutex_unwrap a w = Done (Mutex.value m, w')
    ∧ primitive a w' = Some Locked
    ∧ holds w' g a
    ∧ (∀ b, unlock_count b w' = unlock_count b w)
    ∧ owned a w' = Some (moved_from (Mutex.value m)).
Proof.
  intros Hr Hh. apply reachable_wf in Hr as [HL _ _].
  pose proof (HL g a Hh) as (m & Hm & Hl)%primitive_lookup.
  exists m. eexists. split; [done|]. unfold_M. rewrite Hm. simpl. rewrite Hm.
  split; [done|]. unfold primitive, owned. simpl. rewrite lookup_insert_eq. simpl.
  split_and!; try done. by rewrite Hl.
Qed.
End Extra.

(** ** The example program, function by function *)

Section Example.
Implicit Types (w : world Z) (a g : addr).

Lemma bind_Blocked {A B} (m : M Z A) (f : A → M Z B) w :
  m w = Blocked → (m ≫= f) w = Blocked.
Proof. intros E. unfold mbind, M_bind. by rewrite E. Qed.

Lemma bind_Undefined {A B} (m : M Z A) (f : A → M Z B) w :
  m w = Undefined → (m ≫= f) w = Undefined.
Proof. intros E. unfold mbind, M_bind. by rewrite E. Qed.

Lemma step_Lock_Done {T} `{!Movable T} g a (m : Mutex.t T) (w : world T) :
  mutexes w !! a = Some m → Mutex.mutex m = Unlocked → guards w !! g = None →
  step (Lock g a) w = Done (tt, locked_by g a m w).
Proof.
  intros Hm Hu Hg. unfold_M. unfold locked_by. rewrite Hm. simpl. rewrite Hu. simpl.
  rewrite Hm. simpl. by rewrite Hg.
Qed.

Lemma step_Lock_Blocked {T} `{!Movable T} g a (m : Mutex.t T) (w : world T) :
  mutexes w !! a = Some m → Mutex.mutex m = Locked → step (Lock g a) w = Blocked.
Proof. intros Hm Hl. unfold_M. rewrite Hm. simpl. by rewrite Hl. Qed.

Lemma step_TryLock_Done {T} `{!Movable T} g a (m : Mutex.t T) (w : world T) :
  mutexes w !! a = Some m → Mutex.mutex m = Unlocked → guards w !! g = None →
  step (TryLock g a false) w = Done (tt, locked_by g a m w).
Proof.
  intros Hm Hu Hg. unfold_M. unfold locked_by. rewrite Hm. simpl. rewrite Hu. simpl.
  rewrite Hm. simpl. by rewrite Hg.
Qed.

Lemma step_TryLock_refused {T} `{!Movable T} g a s (m : Mutex.t T) (w : world T) :
  mutexes w !! a = Some m → Mutex.mutex m = Locked ∨ s = true → guards w !! g = None →
  step (TryLock g a s) w = Done (tt, refused g w).
Proof.
  intros Hm Hs Hg. unfold_M. unfold refused. rewrite Hm. simpl.
  assert (std_mutex_try_lock s (Mutex.mutex m) = (false, Mutex.mutex m)) as ->.
  { destruct Hs as [->| ->]; [done|]. by destruct (Mutex.mutex m). }
  simpl. rewrite Hm. simpl. rewrite Mutex_eta, insert_id by done. simpl. by rewrite Hg.
Qed.

Lemma post_increment_run g G a m w :
  guards w !! g = Some G → MutexGuard.value G = Some a → mutexes w !! a = Some m →
  post_increment g w
  = if decide (Mutex.value m < INT_MAX)%Z
    then Done (Mutex.value m,
               World (<[a:=Mutex.mk (Mutex.mutex m) (Mutex.value m + 1)%Z]> (mutexes w))
                 (guards w) (trace w))
    else Undefined.
Proof.
  intros Hg Hv Hm. unfold post_increment. unfold_M. rewrite Hg. simpl. rewrite Hv, Hm.
  simpl. rewrite Hm. case_decide; [|reflexivity]. simpl. by rewrite Hm.
Qed.

Lemma example_lock_run test guard m w :
  mutexes w !! test = Some m →
  guards w !! guard = None →
  example.lock test guard w
  = match Mutex.mutex m with
    | Locked => Blocked
    | Unlocked =>
        if decide (Mutex.value m < INT_MAX)%Z
        then Done ([Int (Mutex.value m); Endl], incremented test m w)
        else Undefined
    end.
Proof.
  intros Hm Hg. unfold example.lock.
  destruct (Mutex.mutex m) eqn:Hu;
    [|by apply bind_Blocked, (step_Lock_Blocked guard test m)].
  rewrite (bind_Done _ _ _ _ _ (step_Lock_Done guard test m w Hm Hu Hg)).
  pose proof (post_increment_run guard (MutexGuard.mk (Some test) (Some test)) test
                (Mutex.mk Locked (Mutex.value m)) (locked_by guard test m w)) as Hp.
  simpl in Hp. rewrite !lookup_insert_eq in Hp. specialize (Hp eq_refl eq_refl eq_refl).
  case_decide; [|by apply bind_Undefined].
  rewrite (bind_Done _ _ _ _ _ Hp).
  erewrite bind_Done; [|eapply drop_held_Done; simpl; by rewrite ?lookup_insert_eq].
  unfold mret, M_ret, incremented, dropped, unlocked. simpl.
  by rewrite !insert_insert_eq, delete_insert_id.
Qed.

Lemma example_try_lock_run test guard spurious m w :
  mutexes w !! test = Some m →
  guards w !! guard = None →
  example.try_lock test guard spurious w
  = match Mutex.mutex m, spurious with
    | Unlocked, false => example.lock test guard w
    | _, _ => Done ([], w)
    end.
Proof.
  intros Hm Hg. unfold example.try_lock.
  assert ((Mutex.mutex m = Unlocked ∧ spurious = false)
          ∨ (Mutex.mutex m = Locked ∨ spurious = true)) as [[Hu ->]|Hr].
  { destruct (Mutex.mutex m), spurious; auto. }
  - rewrite Hu. rewrite (example_lock_run test guard m w Hm Hg), Hu.
    rewrite (bind_Done _ _ _ _ _ (step_TryLock_Done guard test m w Hm Hu Hg)).
    erewrite bind_Done; [|unfold load_guard; simpl; by rewrite lookup_insert_eq].
    simpl.
    pose proof (post_increment_run guard (MutexGuard.mk (Some test) (Some test)) test
                  (Mutex.mk Locked (Mutex.value m)) (locked_by guard test m w)) as Hp.
    simpl in Hp. rewrite !lookup_insert_eq in Hp. specialize (Hp eq_refl eq_refl eq_refl).
    case_decide.
    + erewrite bind_Done; [|rewrite (bind_Done _ _ _ _ _ Hp); reflexivity].
      erewrite bind_Done; [|eapply drop_held_Done; simpl; by rewrite ?lookup_insert_eq].
      unfold mret, M_ret, incremented, dropped, unlocked. simpl.
      by rewrite !insert_insert_eq, delete_insert_id.
    + by apply bind_Undefined, bind_Undefined.
  - rewrite (bind_Done _ _ _ _ _ (step_TryLock_refused guard test spurious m w Hm Hr Hg)).
    erewrite bind_Done; [|unfold load_guard, refused; simpl; by rewrite lookup_insert_eq].
    simpl. unfold mret at 1, M_ret at 1.
    erewrite bind_Done; [|reflexivity].
    erewrite bind_Done;
      [|eapply drop_null_Done; [unfold refused; simpl; by rewrite lookup_insert_eq|done]].
    unfold mret, M_ret, dropped, refused. simpl. rewrite delete_insert_id by done.
    rewrite world_eta. by destruct Hr as [-> | ->]; destruct (Mutex.mutex m).
Qed.

Lemma Mutex_ctor_Done {T} `{!Movable T} a (v : T) (w : world T) :
  mutexes w !! a = None →
  Mutex_ctor a v w
  = Done (tt, World (<[a:=Mutex.mk Unlocked v]> (mutexes w)) (guards w) (EvCopy :: trace w)).
Proof. intros Hm. unfold_M. simpl. by rewrite Hm. Qed.

Lemma dont_do_this_run local_mutex result w :
  example.dont_do_this local_mutex result w = Undefined.
Proof.
  unfold example.dont_do_this.
  destruct (mutexes w !! local_mutex) eqn:Hm.
  { apply bind_Undefined. unfold_M. simpl. by rewrite Hm. }
  rewrite (bind_Done _ _ _ _ _ (Mutex_ctor_Done local_mutex 0%Z w Hm)).
  set (w1 := World _ _ _).
  destruct (guards w !! result) eqn:Hg.
  { apply bind_Undefined. unfold_M. simpl. rewrite lookup_insert_eq. simpl.
    rewrite lookup_insert_eq. simpl. by rewrite Hg. }
  erewrite bind_Done;
    [|eapply (step_Lock_Done result local_mutex (Mutex.mk Unlocked 0%Z));
      [apply lookup_insert_eq|done..]].
  unfold Mutex_dtor, load_Mutex, mbind, M_bind. simpl. by rewrite lookup_insert_eq.
Qed.

Lemma step_TryLock_occupied {T} `{!Movable T} g a s (G : MutexGuard.t) (w : world T) :
  guards w !! g = Some G → step (TryLock g a s) w = Undefined.
Proof.
  intros Hg. unfold_M. destruct (mutexes w !! a) as [m|] eqn:Hm; [|done]. simpl.
  destruct (std_mutex_try_lock s (Mutex.mutex m)) as [[] st]; simpl; rewrite Hm; simpl;
    by rewrite Hg.
Qed.

(** The world of [main] after [try_lock(mutex)] and [lock(mutex)]. *)
Lemma main_first_calls mutex guard spurious w :
  mutexes w !! mutex = None →
  guards w !! guard = None →
  ∃ w1 o1 w2 o2 w3,
    Mutex_ctor mutex 0%Z w = Done (tt, w1)
    ∧ example.try_lock mutex guard spurious w1 = Done (o1, w2)
    ∧ example.lock mutex guard w2 = Done (o2, w3)
    ∧ o1 ++ o2 = (if spurious then [Int 0; Endl] else [Int 0; Endl; Int 1; Endl])
    ∧ w3 = World (<[mutex:=Mutex.mk Unlocked (if spurious then 1 else 2)%Z]> (mutexes w))
             (guards w)
             ((if spurious then [EvUnlock mutex] else [EvUnlock mutex; EvUnlock mutex])
              ++ EvCopy :: trace w).
Proof.
  intros Hm Hg.
  set (w1 := World (<[mutex:=Mutex.mk Unlocked 0%Z]> (mutexes w)) (guards w)
               (EvCopy :: trace w)).
  assert (mutexes w1 !! mutex = Some (Mutex.mk Unlocked 0%Z)) as Hm1
    by apply lookup_insert_eq.
  assert (example.lock mutex guard w1
          = Done ([Int 0%Z; Endl], incremented mutex (Mutex.mk Unlocked 0%Z) w1)) as Hl1.
  { rewrite (example_lock_run mutex guard _ w1 Hm1 Hg). simpl. by rewrite ?decide_True. }
  set (w2 := incremented mutex (Mutex.mk Unlocked 0%Z) w1) in *.
  assert (mutexes w2 !! mutex = Some (Mutex.mk Unlocked 1%Z)) as Hm2
    by apply lookup_insert_eq.
  assert (example.lock mutex guard w2
          = Done ([Int 1%Z; Endl], incremented mutex (Mutex.mk Unlocked 1%Z) w2)) as Hl2.
  { rewrite (example_lock_run mutex guard _ w2 Hm2 Hg). simpl. by rewrite ?decide_True. }
  exists w1. destruct spurious.
  - exists [], w1, [Int 0%Z; Endl], w2. split_and!; try done.
    + by apply Mutex_ctor_Done.
    + by rewrite (example_try_lock_run mutex guard true _ w1 Hm1 Hg).
    + unfold w2, incremented, w1. simpl. by rewrite insert_insert_eq.
  - exists [Int 0%Z; Endl], w2, [Int 1%Z; Endl],
      (incremented mutex (Mutex.mk Unlocked 1%Z) w2). split_and!; try done.
    + by apply Mutex_ctor_Done.
    + by rewrite (example_try_lock_run mutex guard false _ w1 Hm1 Hg).
    + unfold w2, incremented, w1. simpl. by rewrite !insert_insert_eq.
Qed.

(** X15: [main] has undefined behaviour, whatever the storage of its objects
    and whether or not [try_lock()] fails spuriously: its statements up to
    the call of [dont_do_this] do not block, and that call is undefined. *)
Theorem main_is_undefined mutex guard local_mutex temporary spurious w :
  example.main mutex guard local_mutex temporary spurious w = Undefined.
Proof.
  unfold example.main.
  destruct (mutexes w !! mutex) eqn:Hm.
  { apply bind_Undefined. unfold_M. simpl. by rewrite Hm. }
  destruct (guards w !! guard) as [G|] eqn:Hg.
  { rewrite (bind_Done _ _ _ _ _ (Mutex_ctor_Done mutex 0%Z w Hm)).
    apply bind_Undefined. unfold example.try_lock.
    by apply bind_Undefined, (step_TryLock_occupied guard mutex spurious G). }
  destruct (main_first_calls mutex guard spurious w Hm Hg)
    as (w1 & o1 & w2 & o2 & w3 & H1 & H2 & H3 & _).
  rewrite (bind_Done _ _ _ _ _ H1), (bind_Done _ _ _ _ _ H2), (bind_Done _ _ _ _ _ H3).
  apply bind_Undefined, dont_do_this_run.
Qed.
End Example.

(** X12: [lock(test)] of the example on a live Mutex, with free storage for
    its guard.  It blocks when the primitive is held; it is undefined when
    the owned [int] is [INT_MAX]; otherwise it writes the owned value to
    [std::cout], leaves the owned value one higher and the primitive free
    again after one [unlock], and leaves no guard behind and every other
    Mutex as it was. *)
Theorem example_lock_outcome test guard m (w : world Z) :
  mutexes w !! test = Some m →
  guards w !! guard = None →
  match Mutex.mutex m with
  | Locked => example.lock test guard w = Blocked
  | Unlocked =>
      if decide (Mutex.value m < INT_MAX)%Z
      then ∃ w', example.lock test guard w = Done ([Int (Mutex.value m); Endl], w')
             ∧ owned test w' = Some (Mutex.value m + 1)%Z
             ∧ primitive test w' = Some Unlocked
             ∧ unlock_count test w' = S (unlock_count test w)
             ∧ guards w' = guards w
             ∧ (∀ b, b ≠ test → mutexes w' !! b = mutexes w !! b)
      else example.lock test guard w = Undefined
  end.
Proof.
  intros Hm Hg. rewrite (example_lock_run test guard m w Hm Hg).
  destruct (Mutex.mutex m); [|done]. case_decide; [|done].
  eexists. split; [done|]. unfold owned, primitive, incremented. simpl.
  rewrite lookup_insert_eq. split_and!; try done.
  - unfold unlock_count. simpl. rewrite filter_cons. by rewrite decide_True.
  - intros b ?. by rewrite lookup_insert_ne.
Qed.

(** X13: [try_lock(test)] of the example on a live Mutex, with free storage
    for its guard.  When the primitive is free and [try_lock()] does not fail
    spuriously it does what [lock(test)] does; otherwise it writes nothing
    and leaves the world as it was. *)
Theorem example_try_lock_outcome test guard spurious m (w : world Z) :
  mutexes w !! test = Some m →
  guards w !! guard = None →
  example.try_lock test guard spurious w
  = match Mutex.mutex m, spurious with
    | Unlocked, false => example.lock test guard w
    | _, _ => Done ([], w)
    end.
Proof. apply example_try_lock_run. Qed.

(** X14: [dont_do_this] with free storage for its local Mutex and for its
    result.  The construction and [lock()] complete and the result guard
    holds the primitive of the local Mutex; the function then ends the
    lifetime of that Mutex while its primitive is still held, which is
    undefined behaviour. *)
Theorem dont_do_this_destroys_a_held_Mutex local_mutex result (w : world Z) :
  mutexes w !! local_mutex = None →
  guards w !! result = None →
  ∃ w1, (Mutex_ctor local_mutex 0%Z;; step (Lock result local_mutex)) w = Done (tt, w1)
    ∧ holds w1 result local_mutex
    ∧ primitive local_mutex w1 = Some Locked
    ∧ Mutex_dtor local_mutex w1 = Undefined
    ∧ example.dont_do_this local_mutex result w = Undefined.
Proof.
  intros Hm Hg. eexists. split.
  { rewrite (bind_Done _ _ _ _ _ (Mutex_ctor_Done local_mutex 0%Z w Hm)).
    apply (step_Lock_Done result local_mutex (Mutex.mk Unlocked 0%Z));
      [apply lookup_insert_eq|done..]. }
  split_and!.
  - apply holds_locked_by. by left.
  - rewrite primitive_locked_by. by rewrite decide_True.
  - unfold Mutex_dtor, load_Mutex, mbind, M_bind. simpl. by rewrite lookup_insert_eq.
  - apply dont_do_this_run.
Qed.

(** X16: [main] up to the call of [dont_do_this], with free storage for its
    Mutex and the guards.  The two calls complete; they write 0 and 1 and
    leave the owned value 2 after two calls of [unlock], or write 0 and leave
    1 after one call when [try_lock()] failed spuriously; the primitive is
    free and no guard is left. *)
Theorem main_before_dont_do_this mutex guard spurious (w : world Z) :
  mutexes w !! mutex = None →
  guards w !! guard = None →
  ∃ w1 o1 w2 o2 w3,
    Mutex_ctor mutex 0%Z w = Done (tt, w1)
    ∧ example.try_lock mutex guard spurious w1 = Done (o1, w2)
    ∧ example.lock mutex guard w2 = Done (o2, w3)
    ∧ o1 ++ o2 = (if spurious then [Int 0; Endl] else [Int 0; Endl; Int 1; Endl])
    ∧ owned mutex w3 = Some (if spurious then 1 else 2)%Z
    ∧ primitive mutex w3 = Some Unlocked
    ∧ unlock_count mutex w3 = (if spurious then 1 else 2) + unlock_count mutex w
    ∧ guards w3 = guards w.
Proof.
  intros Hm Hg.
  destruct (main_first_calls mutex guard spurious w Hm Hg)
    as (w1 & o1 & w2 & o2 & w3 & H1 & H2 & H3 & Ho & ->).
  exists w1, o1, w2, o2. eexists. split_and!; try done.
  - unfold owned. simpl. by rewrite lookup_insert_eq.
  - unfold primitive. simpl. by rewrite lookup_insert_eq.
  - unfold unlock_count. simpl.
    destruct spurious; simpl; rewrite !filter_cons; rewrite ?decide_True by done;
      by rewrite decide_False.
Qed.

(** ** Concrete instances of the further properties *)

Lemma reachable_mutual_exclusion_witness :
  run [NewMutex 1 0%Z; Lock 1 1; TryLock 2 1 false] init = Done (tt, contended_world)
  ∧ holds contended_world 1 1
  ∧ 1%positive = 1%positive ∧ primitive 1 contended_world = Some Locked.
Proof.
  split; [by_eval|]. split; [by_eval|].
  apply (reachable_mutual_exclusion [NewMutex 1 0%Z; Lock 1 1; TryLock 2 1 false]
           contended_world 1 1 1); by_eval.
Defined.

Lemma valid_guard_dereferences_witness :
  ∃ a m, MutexGuard.mutex (MutexGuard.mk (Some 1%positive) (Some 1%positive)) = Some a
    ∧ MutexGuard_deref 1 held_world = Done (a, held_world)
    ∧ mutexes held_world !! a = Some m ∧ Mutex.mutex m = Locked.
Proof.
  apply (valid_guard_dereferences [NewMutex 1 0%Z; Lock 1 1] held_world 1); by_eval.
Defined.

Lemma try_lock_outcome_witness :
  ∃ G w', Mutex_try_lock 1 false free_world = Done (G, w')
    ∧ MutexGuard_bool G = true
    ∧ primitive 1 w' = Some Locked
    ∧ owned 1 w' = owned 1 free_world.
Proof.
  eexists _, _. split; [by_eval|].
  destruct (try_lock_outcome 1 false free_world
              (MutexGuard.mk (Some 1%positive) (Some 1%positive))
              (World {[1%positive := Mutex.mk Locked 0%Z]} ∅ [EvCopy]))
    as [(Hb & _ & _ & Hl & _ & Ho & _)|(Hb & _)]; [by_eval|by split_and!|discriminate Hb].
Defined.

Lemma held_Mutex_refuses_witness :
  (∀ spurious,
     Mutex_try_lock 1 spurious held_world = Done (MutexGuard.mk None None, held_world))
  ∧ Mutex_lock 1 held_world = Blocked
  ∧ Mutex_dtor 1 held_world = Undefined.
Proof.
  apply (held_Mutex_refuses [NewMutex 1 0%Z; Lock 1 1] held_world 1 1); by_eval.
Defined.

Lemma drop_releases_for_next_try_lock_witness :
  ∃ w1, step (Drop 1) held_world = Done (tt, w1)
    ∧ unlock_count 1 w1 = S (unlock_count 1 held_world)
    ∧ primitive 1 w1 = Some Unlocked
    ∧ owned 1 w1 = owned 1 held_world
    ∧ guards w1 = delete 1%positive (guards held_world)
    ∧ ∃ G w2, Mutex_try_lock 1 false w1 = Done (G, w2) ∧ MutexGuard_bool G = true.
Proof.
  apply (drop_releases_for_next_try_lock [NewMutex 1 0%Z; Lock 1 1] held_world 1 1);
    by_eval.
Defined.

Lemma moved_from_guard_keeps_access_witness :
  ∃ w1, step (MoveCtor 2 1) held_world = Done (tt, w1)
    ∧ MutexGuard_bool <$> guards w1 !! 1%positive = Some false
    ∧ MutexGuard_deref 1 w1 = Done (1%positive, w1)
    ∧ ∀ v, ∃ w2, step (Write 1 v) w1 = Done (tt, w2) ∧ owned 1 w2 = Some v.
Proof.
  eexists. split; [by_eval|].
  apply (moved_from_guard_keeps_access held_world 2 1
           (MutexGuard.mk (Some 1%positive) (Some 1%positive)) 1);
    [by_eval|by_eval|eexists; by_eval|by_eval].
Defined.

Lemma move_ctor_transfers_witness :
  ∃ w1, MutexGuard_move_ctor 2 1 held_world = Done (tt, w1)
    ∧ guards w1 !! 2%positive = Some (MutexGuard.mk (Some 1%positive) (Some 1%positive))
    ∧ guards w1 !! 1%positive = Some (MutexGuard.mk (Some 1%positive) None)
    ∧ MutexGuard_bool <$> guards w1 !! 1%positive = Some false
    ∧ (∀ x, x ≠ 2%positive → x ≠ 1%positive → guards w1 !! x = guards held_world !! x)
    ∧ mutexes w1 = mutexes held_world ∧ trace w1 = trace held_world.
Proof.
  apply (move_ctor_transfers held_world 2 1
           (MutexGuard.mk (Some 1%positive) (Some 1%positive))); by_eval.
Defined.

Lemma no_leak_without_move_assign_witness :
  ∃ w : world Z,
    run [NewMutex 1 0%Z; Lock 1 1; MoveCtor 2 1; Drop 1] init = Done (tt, w)
    ∧ (∀ a, primitive a w = Some Locked → ∃ g, holds w g a)
    ∧ (guards w = ∅ → ∀ a, primitive a w ≠ Some Locked).
Proof.
  eexists. split; [by_eval|].
  apply (no_leak_without_move_assign [NewMutex 1 0%Z; Lock 1 1; MoveCtor 2 1; Drop 1]);
    by_eval.
Defined.

Lemma guards_construct_no_value_witness :
  ∃ w' : world Z,
    run [Lock 2 1; Write 2 5%Z; MoveCtor 3 2; Drop 2; Drop 3; DeleteMutex 1] free_world
    = Done (tt, w')
    ∧ copy_count w' = copy_count free_world
    ∧ move_count w' = move_count free_world.
Proof.
  eexists. split; [by_eval|].
  apply (guards_construct_no_value
           [Lock 2 1; Write 2 5%Z; MoveCtor 3 2; Drop 2; Drop 3; DeleteMutex 1]
           free_world); by_eval.
Defined.

Lemma unwrap_returns_last_write_witness :
  ∃ w1 w2 : world Z,
    step (Write 1 5%Z) held_world = Done (tt, w1)
    ∧ run [Drop 1; TryLock 2 1 false; Drop 2] w1 = Done (tt, w2)
    ∧ owned 1 w2 = Some 5%Z
    ∧ ∃ w3, Mutex_unwrap 1 w2 = Done (5%Z, w3).
Proof.
  eexists _, _. split; [by_eval|]. split; [by_eval|].
  eapply (unwrap_returns_last_write held_world 1 1 5%Z _
            [Drop 1; TryLock 2 1 false; Drop 2]); by_eval.
Defined.

Lemma unwrap_ignores_lock_witness :
  ∃ m w', mutexes held_world !! 1%positive = Some m
    ∧ Mutex_unwrap 1 held_world = Done (Mutex.value m, w')
    ∧ primitive 1 w' = Some Locked
    ∧ holds w' 1 1
    ∧ (∀ b, unlock_count b w' = unlock_count b held_world)
    ∧ owned 1 w' = Some (moved_from (Mutex.value m)).
Proof.
  apply (unwrap_ignores_lock [NewMutex 1 0%Z; Lock 1 1] held_world 1 1); by_eval.
Defined.

Lemma example_lock_outcome_witness :
  ∃ w', example.lock 1 1 free_world = Done ([Int 0; Endl], w')
    ∧ owned 1 w' = Some 1%Z
    ∧ primitive 1 w' = Some Unlocked
    ∧ unlock_count 1 w' = S (unlock_count 1 free_world)
    ∧ guards w' = guards free_world
    ∧ (∀ b, b ≠ 1%positive → mutexes w' !! b = mutexes free_world !! b).
Proof.
  apply (example_lock_outcome 1 1 (Mutex.mk Unlocked 0%Z) free_world); by_eval.
Defined.

Lemma example_try_lock_outcome_witness :
  example.try_lock 1 2 false held_world = Done ([], held_world).
Proof.
  apply (example_try_lock_outcome 1 2 false (Mutex.mk Locked 0%Z) held_world); by_eval.
Defined.

Lemma main_before_dont_do_this_witness :
  ∃ w1 o1 w2 o2 w3,
    Mutex_ctor 1 0%Z init = Done (tt, w1)
    ∧ example.try_lock 1 2 false w1 = Done (o1, w2)
    ∧ example.lock 1 2 w2 = Done (o2, w3)
    ∧ o1 ++ o2 = [Int 0; Endl; Int 1; Endl]
    ∧ owned 1 w3 = Some 2%Z
    ∧ primitive 1 w3 = Some Unlocked
    ∧ unlock_count 1 w3 = 2 + unlock_count 1 (init (T:=Z))
    ∧ guards w3 = guards (init (T:=Z)).
Proof. apply (main_before_dont_do_this 1 2 false init); by_eval. Defined.

(** ** Chains of move constructions *)

Section Scoped.
Context {T : Type} `{!Movable T}.
Implicit Types (w : world T) (a g : addr).

Lemma in_live_lookup w x : x ∈ dom (guards w) → ∃ G, guards w !! x = Some G.
Proof. intros [G HG]%elem_of_dom. eauto. Qed.

Lemma not_in_live_lookup w x : x ∉ dom (guards w) → guards w !! x = None.
Proof. apply not_elem_of_dom. Qed.

Lemma write_Done g G a m (v : T) w :
  guards w !! g = Some G → MutexGuard.value G = Some a → mutexes w !! a = Some m →
  step (Write g v) w
  = Done (tt, World (<[a:=Mutex.mk (Mutex.mutex m) v]> (mutexes w)) (guards w) (trace w)).
Proof.
  intros Hg Hv Hm. unfold_M. simpl. rewrite Hg. simpl. rewrite Hv, Hm. simpl.
  rewrite Hm. simpl. by rewrite Hm.
Qed.

Lemma scoped_step a live chain h o p h' w :
  follows a live chain h w →
  scoped live chain h (o :: p) = Some h' →
  ∃ live1 chain1 h1 w1,
    step o w = Done (tt, w1)
    ∧ follows a live1 chain1 h1 w1
    ∧ scoped live1 chain1 h1 p = Some h'
    ∧ unlock_count a w1 = released h h1 + unlock_count a w
    ∧ (h1 = None → h ≠ None → primitive a w1 = Some Unlocked)
    ∧ (h = None → h1 = None ∧ primitive a w1 = primitive a w).
Proof.
  intros [Hwf Hlive Hchain Halive Hhold] Hs.
  destruct o as [| | | |g src| |x|x v]; simpl in Hs; try discriminate.
  - (* move construction *)
    case_decide as Hd; [|done]. destruct Hd as [Hsrc Hg]. subst live.
    pose proof Hsrc as Hsrc_live.
    apply in_live_lookup in Hsrc as [Gs Hsrc]. apply not_in_live_lookup in Hg.
    assert (g ≠ src) as Hne by congruence.
    exists ({[g]} ∪ dom (guards w)),
      (if decide (src ∈ chain) then {[g]} ∪ chain else chain),
      (if decide (h = Some src) then Some g else h), (assigned g src Gs w).
    split; [by apply move_ctor_Done|].
    split; [|split; [exact Hs|]].
    + split.
      * by apply wf_assigned.
      * simpl. rewrite !dom_insert_L. set_solver.
      * intros x Hx. simpl.
        assert (x ∈ chain ∨ (x = g ∧ src ∈ chain)) as Hcase.
        { case_decide; set_solver. }
        destruct (decide (x = src)) as [->|Hxs].
        { rewrite lookup_insert_eq. eexists. split; [done|]. simpl.
          destruct Hcase as [Hc|[-> _]]; [|done].
          destruct (Hchain src Hc) as (G & HG & Hv). congruence. }
        rewrite lookup_insert_ne by done.
        destruct Hcase as [Hc|[-> Hc]].
        -- assert (x ≠ g) as Hxg.
           { intros ->. destruct (Hchain g Hc) as (G & HG & _). congruence. }
           rewrite lookup_insert_ne by done. by apply Hchain.
        -- rewrite lookup_insert_eq. eexists. split; [done|].
           destruct (Hchain src Hc) as (G & HG & Hv). congruence.
      * done.
      * destruct h as [y|].
        -- assert (g ≠ y) as Hgy.
           { intros ->. destruct Hhold as [[G HG]%holds_alive _]. congruence. }
           pose proof (sole_holder_assigned a y g src Gs w Hsrc Hgy Hhold) as Hn.
           destruct (decide (src = y)) as [->|Hsy].
           ++ by rewrite decide_True.
           ++ rewrite decide_False by congruence. done.
        -- rewrite decide_False by done. by apply no_holder_assigned.
    + change (unlock_count a (assigned g src Gs w)) with (unlock_count a w).
      rewrite primitive_assigned.
      destruct h as [y|]; repeat case_decide; simplify_eq; simpl; split_and!; done.
  - (* destruction *)
    case_decide as Hd; [|done]. subst live.
    apply in_live_lookup in Hd as [G Hx].
    assert (∃ w1, step (Drop x) w = Done (tt, w1)) as [w1 Hstep].
    { destruct (MutexGuard.mutex G) as [b|] eqn:Hmu.
      - assert (holds w x b) as Hb by (unfold holds; by rewrite Hx, <- Hmu).
        pose proof (wf_locked _ Hwf x b Hb) as Hl. unfold primitive in Hl.
        destruct (mutexes w !! b) as [m|] eqn:Hm; [|done].
        eexists. apply (drop_held_Done x G b m); try done.
        simpl in Hl. congruence.
      - eexists. by apply (drop_null_Done x G). }
    exists (dom (guards w) ∖ {[x]}), (chain ∖ {[x]}),
      (if decide (h = Some x) then None else h), w1.
    split; [done|]. pose proof Hstep as Hinv.
    apply drop_inv in Hinv as (G' & Hx' & Hinv).
    assert (G' = G) as -> by congruence.
    assert (guards w1 = delete x (guards w) ∧ is_Some (mutexes w1 !! a)) as [Eg Ha].
    { destruct (MutexGuard.mutex G) as [b|].
      - destruct Hinv as (m & Hm & _ & ->). split; [done|]. simpl.
        destruct (decide (b = a)) as [->|].
        + rewrite lookup_insert_eq. eauto.
        + by rewrite lookup_insert_ne.
      - by subst w1. }
    assert (∀ y c, holds w1 y c ↔ y ≠ x ∧ holds w y c) as Hholds.
    { intros y c. unfold holds. rewrite Eg.
      destruct (decide (y = x)) as [->|].
      - rewrite lookup_delete_eq. simpl. intuition congruence.
      - rewrite lookup_delete_ne by done. intuition congruence. }
    split; [|split; [exact Hs|]].
    + split.
      * by apply (step_wf (Drop x) w).
      * rewrite Eg. by rewrite dom_delete_L.
      * intros y Hy. rewrite Eg.
        apply elem_of_difference in Hy as [Hy Hyx].
        rewrite lookup_delete_ne by set_solver. by apply Hchain.
      * done.
      * destruct h as [y|].
        -- case_decide as E.
           ++ simplify_eq. intros z Hz. apply Hholds in Hz as [Hzx Hz].
              apply Hzx. by apply Hhold.
           ++ destruct Hhold as [Hy Hu]. split.
              ** apply Hholds. split; [congruence|done].
              ** intros z Hz. apply Hholds in Hz as [_ Hz]. auto.
        -- rewrite decide_False by done. intros z Hz.
           apply Hholds in Hz as [_ Hz]. by apply (Hhold z).
    + (* the count and the primitive *)
      destruct (MutexGuard.mutex G) as [b|] eqn:Hmu.
      * destruct Hinv as (m & Hm & Hl & ->).
        assert (holds w x b) as Hb by (unfold holds; by rewrite Hx, <- Hmu).
        change (unlock_count a (dropped x (unlocked b m w)))
          with (unlock_count a (unlocked b m w)).
        rewrite unlock_count_unlocked, primitive_dropped, primitive_unlocked.
        destruct h as [y|].
        -- case_decide as E.
           ++ simplify_eq. destruct Hhold as [Hy _].
              assert (b = a) as -> by (unfold holds in *; congruence).
              rewrite !decide_True by done. split_and!; done.
           ++ assert (a ≠ b) as Hab.
              { intros ->. apply E. f_equal. symmetry. by apply Hhold. }
              rewrite !decide_False by done. split_and!; done.
        -- rewrite (decide_False (P:=None = Some x)) by done.
           assert (a ≠ b) as Hab by (intros ->; by apply (Hhold x)).
           rewrite !decide_False by done. split_and!; done.
      * subst w1. destruct h as [y|].
        -- case_decide as E.
           ++ simplify_eq. destruct Hhold as [Hy _]. unfold holds in Hy.
              rewrite Hx in Hy. simpl in Hy. congruence.
           ++ split_and!; done.
        -- rewrite decide_False by done. split_and!; done.
  - (* a write through a guard of the chain *)
    case_decide as Hc; [|done].
    destruct (Hchain x Hc) as (G & Hx & Hv). destruct Halive as [m Hm].
    eexists live, chain, h, _. split; [by apply (write_Done x G a m)|].
    pose proof (write_Done x G a m v w Hx Hv Hm) as Hstep.
    split; [|split; [exact Hs|]].
    + split; try done.
      * by apply (step_wf (Write x v) w).
      * simpl. rewrite lookup_insert_eq. eauto.
    + assert (primitive a (World (<[a:=Mutex.mk (Mutex.mutex m) v]> (mutexes w))
                              (guards w) (trace w)) = primitive a w) as Ep.
      { unfold primitive. simpl. by rewrite lookup_insert_eq, Hm. }
      split_and!.
      * by destruct h.
      * intros -> ?. done.
      * intros ->. done.
Qed.

Lemma released_trans h h1 h2 :
  (h = None → h1 = None) → (h1 = None → h2 = None) →
  released h1 h2 + released h h1 = released h h2.
Proof.
  intros H1 H2. destruct h, h1, h2; simpl; try done.
  - by specialize (H2 eq_refl).
  - by specialize (H1 eq_refl).
Qed.

Lemma scoped_run a p live chain h h' w :
  follows a live chain h w →
  scoped live chain h p = Some h' →
  ∃ w', run p w = Done (tt, w')
    ∧ unlock_count a w' = released h h' + unlock_count a w
    ∧ (h' = None → h ≠ None → primitive a w' = Some Unlocked)
    ∧ (h = None → h' = None ∧ primitive a w' = primitive a w)
    ∧ (∀ x, h' = Some x → sole_holder a x w' ∧ primitive a w' = Some Locked).
Proof.
  revert live chain h w. induction p as [|o p IH]; intros live chain h w Hf Hs.
  - simpl in Hs. simplify_eq. exists w. split; [done|].
    split_and!.
    + by destruct h'.
    + done.
    + done.
    + intros x ->. destruct Hf as [Hwf _ _ _ Hh]. split; [done|].
      apply (wf_locked _ Hwf x a), Hh.
  - destruct (scoped_step a live chain h o p h' w Hf Hs)
      as (live1 & chain1 & h1 & w1 & Hstep & Hf1 & Hs1 & Ec & Eu & En).
    destruct (IH live1 chain1 h1 w1 Hf1 Hs1) as (w' & Hrun & Ec' & Eu' & En' & Eh').
    exists w'. split.
    { simpl. unfold mbind at 1, M_bind at 1. by rewrite Hstep. }
    split_and!.
    + rewrite Ec', Ec, Nat.add_assoc. f_equal. apply released_trans.
      * intros E. by destruct (En E).
      * intros E. by destruct (En' E).
    + intros E1 E2. destruct h1 as [y|].
      * by apply Eu'.
      * destruct (En' eq_refl) as [_ ->]. by apply Eu.
    + intros E. destruct (En E) as [-> E1]. destruct (En' eq_refl) as [E2 E3].
      split; [done|]. congruence.
    + done.
Qed.

(** X17: a guard [g] obtained from a successful [lock()] or [try_lock()] on
    the Mutex at [a], in a world a client program reached; then any statements
    that respect the lifetimes of the guards: move constructions in free
    storage from live guards, destructions of live guards, and writes through
    the guards that descend from [g].  The run completes.  If the guard that
    holds the lock at the end of the moves has been destroyed, [unlock] was
    called exactly once on the primitive, which is free; if it is still
    alive, [unlock] was not called, the primitive is held and that guard is
    the only one pointing to it.  Destroying moved-from guards adds no call. *)
Theorem move_construction_unlocks_exactly_once p0 w0 g a w p h' :
  run p0 init = Done (tt, w0) →
  acquired g a w0 w →
  scoped (dom (guards w)) {[g]} (Some g) p = Some h' →
  ∃ w', run p w = Done (tt, w')
    ∧ match h' with
      | None => unlock_count a w' = S (unlock_count a w0)
                ∧ primitive a w' = Some Unlocked
      | Some x => unlock_count a w' = unlock_count a w0
                  ∧ primitive a w' = Some Locked
                  ∧ sole_holder a x w'
      end.
Proof.
  intros Hreach Hacq Hs.
  assert (wf w0) as Hwf0 by (eapply run_wf; [apply wf_init|done]).
  destruct (acquired_sole_holder g a w0 w Hwf0 Hacq) as [Hsole Htr].
  assert (follows a (dom (guards w)) {[g]} (Some g) w) as Hf.
  { assert (∃ m, mutexes w0 !! a = Some m ∧ w = locked_by g a m w0) as (m & Hm & ->).
    { destruct Hacq as [H|(s & H & Hb)].
      - apply lock_inv in H as (m & ? & ? & ? & ?). eauto.
      - apply try_lock_inv in H as (m & Hm & Hg & [->|[Hu ->]]); [|eauto].
        simpl in Hb. by rewrite lookup_insert_eq in Hb. }
    split; try done.
    - destruct Hacq as [H|(s & H & _)]; by eapply step_wf.
    - intros x ->%elem_of_singleton. simpl. rewrite lookup_insert_eq. eauto.
    - simpl. rewrite lookup_insert_eq. eauto. }
  destruct (scoped_run a p _ _ _ h' w Hf Hs) as (w' & Hrun & Ec & Eu & _ & Eh).
  exists w'. split; [done|].
  assert (unlock_count a w = unlock_count a w0) as E0
    by (unfold unlock_count; by rewrite Htr).
  destruct h' as [x|]; simpl in Ec.
  - destruct (Eh x eq_refl). split_and!; [congruence|done..].
  - split; [lia|]. by apply Eu.
Qed.
End Scoped.

Lemma move_construction_unlocks_exactly_once_witness :
  ∃ w' : world Z,
    run [NewMutex 1 0%Z] init = Done (tt, free_world)
    ∧ acquired 1 1 free_world held_world
    ∧ run [MoveCtor 2 1; Write 1 5%Z; MoveCtor 3 2; Drop 1; Write 3 6%Z; Drop 3; Drop 2]
        held_world = Done (tt, w')
    ∧ unlock_count 1 w' = S (unlock_count 1 free_world)
    ∧ primitive 1 w' = Some Unlocked.
Proof.
  destruct (move_construction_unlocks_exactly_once [NewMutex 1 0%Z] free_world 1 1
              held_world
              [MoveCtor 2 1; Write 1 5%Z; MoveCtor 3 2; Drop 1; Write 3 6%Z; Drop 3; Drop 2]
              None)
    as (w' & Hrun & Hc & Hp); [by_eval|left; by_eval|by_eval|].
  exists w'. split; [by_eval|]. split; [left; by_eval|]. by split_and!.
Defined.

Lemma dont_do_this_destroys_a_held_Mutex_witness :
  ∃ w1, (Mutex_ctor 2 0%Z;; step (Lock 3 2)) free_world = Done (tt, w1)
    ∧ holds w1 3 2
    ∧ primitive 2 w1 = Some Locked
    ∧ Mutex_dtor 2 w1 = Undefined
    ∧ example.dont_do_this 2 3 free_world = Undefined.
Proof. apply (dont_do_this_destroys_a_held_Mutex 2 3 free_world); by_eval. Defined.
